(** * VSLilyPond intellisense: a shallow embedding of [src/intellisense.ts]

    The definitions follow the source file top to bottom:

    - [Str]: the JavaScript string operations the file uses
      ([trim], [split(/\s+/)], [Number.parseInt(_, 10)]);
    - [RegExp]: a backtracking matcher for the regular-expression
      constructs that [errMsgRegex] is built from, with [exec] as it
      behaves under the [g] flag;
    - the module state ([intellisenseOutputChannel], [intellisenseProcess],
      [timeout]), the diagnostic collection, and the functions
      [triggerIntellisense], [getDiagSeverity], [addToDiagCol],
      [processIntellisenseErrors], [execIntellisense] and the handlers
      registered by [subscribeIntellisense];
    - an event loop that delivers editor events, timer expirations and
      child-process events to those handlers.

    The properties come after the definitions: facts about strings and
    the matcher, the error-line pattern, the parser and the location
    resolver, then the process runner and the debounce scheduler, and
    last some runs on a concrete environment.

    A JavaScript string is modelled as a Rocq [string]; a character stands
    for a UTF-16 code unit below 256.  A JavaScript number is modelled as
    a [number]: an integer that a double holds exactly, or an infinity;
    [toNumber] rounds an integer to the nearest double as the language
    does. *)

From Stdlib Require Import ZArith Ascii String DecimalString DecimalNat.
From stdpp Require Import gmap strings list.

Local Open Scope Z_scope.

#[local] Arguments String.append : simpl nomatch.

(** ** Numbers *)

(** The JavaScript numbers this program computes with: the integers among
    the doubles, and the two infinities.  (Fractions and [NaN] do not
    arise from [parseInt] of a digit string and subtraction of 1.) *)
Inductive number := Num (z : Z) | Infinity | NegInfinity.

(** The Number value for a mathematical integer: the nearest double,
    and of two equally near ones the one with the even significand; an
    integer that rounds to 2^1024 or beyond gives an infinity.  A double
    has 53 significant bits: with [2^e] the weight of the last of them,
    [q] is the significand and [r] what lies below it. *)
Definition toNumber (z : Z) : number :=
  let a := Z.abs z in
  let e := Z.log2 a - 52 in
  if e <=? 0 then Num z
  else
    let q := Z.shiftr a e in
    let r := Z.land a (Z.ones e) in
    let half := Z.shiftl 1 (e - 1) in
    let q' := if (r <? half) || ((r =? half) && Z.even q) then q else q + 1 in
    let m := Z.shiftl q' e in
    if Z.shiftl 1 1024 <=? m then (if z <? 0 then NegInfinity else Infinity)
    else Num (Z.sgn z * m).

(** [x - 1] *)
Definition minus1 (x : number) : number :=
  match x with
  | Num z => toNumber (z - 1)
  | Infinity => Infinity
  | NegInfinity => NegInfinity
  end.

(** [x <= y] *)
Definition number_le (x y : number) : Prop :=
  match x, y with
  | NegInfinity, _ | _, Infinity => True
  | Num a, Num b => a ≤ b
  | _, _ => False
  end.

(** ** Strings *)

Module Str.

(** [forallb] for strings. *)
Fixpoint all (cls : ascii → bool) (s : string) : bool :=
  match s with
  | EmptyString => true
  | String c s' => cls c && all cls s'
  end.

Fixpoint rev_onto (s acc : string) : string :=
  match s with
  | EmptyString => acc
  | String c s' => rev_onto s' (String c acc)
  end.

Definition rev (s : string) : string := rev_onto s "".

(** ECMAScript WhiteSpace and LineTerminator code units below 256:
    TAB, LF, VT, FF, CR, SP and NBSP.  These are the characters removed
    by [String.prototype.trim] and matched by [\s]. *)
Definition isSpace (c : ascii) : bool :=
  match N_of_ascii c with
  | 9 | 10 | 11 | 12 | 13 | 32 | 160 => true
  | _ => false
  end%N.

Fixpoint trimStart (s : string) : string :=
  match s with
  | String c s' => if isSpace c then trimStart s' else s
  | EmptyString => EmptyString
  end.

Definition trimEnd (s : string) : string := rev (trimStart (rev s)).

(** [s.trim()] *)
Definition trim (s : string) : string := trimEnd (trimStart s).

(** [s.split(/\s+/)], following RegExp.prototype[Symbol.split]: the
    separator is tried at every index [q]; where it matches, the text
    since the end [p] of the previous separator is pushed and scanning
    resumes behind the (maximal, since [+] is greedy) run of white
    space; the text after the last separator is pushed at the end.
    [cur] is the text between [p] and [q]; [inSep] says that the scan is
    inside a run of white space that has already been split on. *)
Fixpoint split_ws_from (inSep : bool) (cur s : string) : list string :=
  match s with
  | EmptyString => [cur]
  | String c s' =>
      if isSpace c then
        if inSep then split_ws_from true "" s'
        else cur :: split_ws_from true "" s'
      else split_ws_from false (cur +:+ String c "") s'
  end.

Definition split_ws (s : string) : list string := split_ws_from false "" s.

Definition isDigit (c : ascii) : bool :=
  (48 <=? N_of_ascii c)%N && (N_of_ascii c <=? 57)%N.

Definition digitValue (c : ascii) : Z := Z.of_N (N_of_ascii c) - 48.

(** The digits of [s] up to the first character that is not one,
    accumulated in base 10. *)
Fixpoint parseDigits (acc : Z) (s : string) : Z :=
  match s with
  | String c s' => if isDigit c then parseDigits (10 * acc + digitValue c) s' else acc
  | EmptyString => acc
  end.

(** [Number.parseInt(s, 10)] on the strings this program hands to it:
    capture groups of [\d+], which are non-empty digit strings, so the
    leading white space, the sign and the [NaN] result of the general
    function do not arise.  The result is the Number value for the
    integer the digits denote: exact up to 2^53, rounded beyond, and
    [Infinity] where it rounds to 2^1024 or more. *)
Definition parseInt (s : string) : number := toNumber (parseDigits 0 s).

End Str.

(** ** Regular expressions *)

Module RegExp.

(** The constructs that occur in [errMsgRegex]. *)
Inductive regex : Type :=
| Lit (l : string)              (* literal text *)
| Plus (cls : ascii → bool)     (* one or more of a character class, greedy *)
| Alt (r1 r2 : regex)           (* r1|r2 *)
| Seq (r1 r2 : regex)           (* r1 followed by r2 *)
| Group (n : nat) (r : regex).  (* capture group number n *)

Definition Captures := nat → option string.

Definition noCaptures : Captures := λ _, None.

Definition setCapture (n : nat) (a : string) (caps : Captures) : Captures :=
  λ i, if Nat.eqb i n then Some a else caps i.

(** A continuation receives the text matched by the construct before it,
    the input left over, and the captures so far. *)
Definition Cont (R : Type) := string → string → Captures → option R.

(** Greedy repetition: consume as long as the class accepts, and give
    characters back one at a time while the continuation fails. *)
Fixpoint star {R} (cls : ascii → bool) (acc s : string)
    (k : string → string → option R) : option R :=
  match s with
  | String c s' =>
      if cls c then
        match star cls (acc +:+ String c "") s' k with
        | Some r => Some r
        | None => k acc s
        end
      else k acc s
  | EmptyString => k acc s
  end.

Definition plus {R} (cls : ascii → bool) (s : string)
    (k : string → string → option R) : option R :=
  match s with
  | String c s' => if cls c then star cls (String c "") s' k else None
  | EmptyString => None
  end.

(** [strip l s] removes the prefix [l] from [s]. *)
Fixpoint strip (l s : string) : option string :=
  match l, s with
  | EmptyString, _ => Some s
  | String a l', String b s' => if Ascii.eqb a b then strip l' s' else None
  | String _ _, EmptyString => None
  end.

(** The backtracking matcher, in the continuation-passing form of the
    ECMAScript specification: alternatives are tried left to right and
    the first complete match wins. *)
Fixpoint m {R} (r : regex) (s : string) (caps : Captures) (k : Cont R) : option R :=
  match r with
  | Lit l =>
      match strip l s with
      | Some s' => k l s' caps
      | None => None
      end
  | Plus cls => plus cls s (λ a s', k a s' caps)
  | Alt r1 r2 =>
      match m r1 s caps k with
      | Some x => Some x
      | None => m r2 s caps k
      end
  | Seq r1 r2 =>
      m r1 s caps (λ a1 s1 c1, m r2 s1 c1 (λ a2 s2 c2, k (a1 +:+ a2) s2 c2))
  | Group n r' => m r' s caps (λ a s' c, k a s' (setCapture n a c))
  end.

Fixpoint maxGroup (r : regex) : nat :=
  match r with
  | Lit _ | Plus _ => 0%nat
  | Alt r1 r2 | Seq r1 r2 => Nat.max (maxGroup r1) (maxGroup r2)
  | Group n r' => Nat.max n (maxGroup r')
  end.

(** The result of a successful [exec]: the array of group texts (index 0
    is the whole match) and the regular expression's new [lastIndex],
    kept as the part of the input that starts there. *)
Definition RegExpExecArray := list (option string).

Record Match := { groups : RegExpExecArray; rest : string }.

Definition accept (r : regex) : Cont Match :=
  λ a s' c, Some {| groups := Some a :: map c (seq 1 (maxGroup r)); rest := s' |}.

(** A match attempt at the start of [s]. *)
Definition matchAt (r : regex) (s : string) : option Match :=
  m r s noCaptures (accept r).

(** [r.exec(_)] for a regular expression with the [g] flag, on the input
    from [lastIndex] on: the start positions are tried from left to
    right, the end of the input included. *)
Fixpoint exec (r : regex) (s : string) : option Match :=
  match matchAt r s with
  | Some x => Some x
  | None =>
      match s with
      | String _ s' => exec r s'
      | EmptyString => None
      end
  end.

(** [errGroup[i]]; a group that did not take part in the match,
    [undefined] in JavaScript, reads as the empty string. *)
Definition group (i : nat) (errGroup : RegExpExecArray) : string :=
  default "" (mjoin (errGroup !! i)).

(** All the matches that repeated calls of [exec] return until it
    answers [null]. *)
Fixpoint execAllFuel (fuel : nat) (r : regex) (s : string) : list Match :=
  match fuel with
  | O => []
  | S fuel' =>
      match exec r s with
      | Some x => x :: execAllFuel fuel' r (rest x)
      | None => []
      end
  end.

Definition execAll (r : regex) (s : string) : list Match :=
  execAllFuel (S (String.length s)) r s.

End RegExp.

Import RegExp.

(** [[^\n\r]] *)
Definition notNewline (c : ascii) : bool :=
  negb (Ascii.eqb c "010" || Ascii.eqb c "013").

(** [errMsgRegex]: the four source fragments joined, flags [gm] (the [m]
    flag only changes [^] and [$], which do not occur). *)
Definition errMsgRegex : regex :=
  Seq (Seq (Group 1 (Plus notNewline)) (Lit ":"))                      (* Absolute file path *)
  (Seq (Seq (Group 2 (Plus Str.isDigit)) (Seq (Lit ":")
            (Seq (Group 3 (Plus Str.isDigit)) (Lit ":"))))             (* Line and column *)
  (Seq (Seq (Lit " ") (Seq (Group 4 (Alt (Lit "error") (Lit "warning")))
            (Lit ":")))                                                 (* Message type *)
       (Seq (Lit " ") (Group 5 (Plus notNewline))))).                   (* Message *)


(** ** The editor interface *)

(** [vscode.DiagnosticSeverity] *)
Inductive DiagnosticSeverity := Error | Warning | Information | Hint.

(** Modelled from the spec: [vscode.Range], whose declaration is not part
    of the source file.  The spec's data model gives a range as
    (startLine, startCol, endLine, endCol); the record holds the four
    numbers in the order [new vscode.Range(_, _, _, _)] receives them. *)
Record Range := {
  startLine : number;
  startCol : number;
  endLine : number;
  endCol : number
}.

(** [vscode.Diagnostic], the fields the source file sets. *)
Record Diagnostic := {
  severity : DiagnosticSeverity;
  range : Range;
  message : string
}.

(** The outcome of code that may throw: a value, or the [message] of the
    [Error] thrown. *)
Inductive result (A : Type) := Ok (a : A) | Throw (msg : string).
Arguments Ok {A} a.
Arguments Throw {A} msg.

(** [LogLevel] of [./util]. *)
Inductive LogLevel := info | warning | error.

#[global] Instance LogLevel_eq_dec : EqDecision LogLevel.
Proof. solve_decision. Defined.

(** What a call of [cp.spawn] comes to.  Node reports a program that
    cannot be started (a missing or unexecutable file) not by an
    exception but on the child it returns: that child never runs, and,
    as the source file registers no ['error'] listener on it, none of
    its listeners is ever called.  Invalid arguments and the other
    errors of the system call make [cp.spawn] throw. *)
Inductive SpawnOutcome :=
| Spawned                      (* the child runs *)
| SpawnFails                   (* the call returns a child that could not be started *)
| SpawnThrows (msg : string).  (* the call throws an [Error] with this message *)

Section Intellisense.

(** File identities, [vscode.Uri]: the keys of a diagnostic collection. *)
Context {Uri : Type} `{Countable Uri}.

(** [vscode.TextDocument] *)
Record TextDocument := {
  uri : Uri;
  languageId : string;
  getText : string
}.

(** What the source file imports: Node's [path], [fs] and
    [child_process], [vscode.Uri], and [getBinPath], [getConfiguration]
    and [langId] of [./util] and [./consts].  [cp_spawn t file args cwd]
    is what the call [cp.spawn(file, args, { cwd })] comes to when it is
    made at time [t]. *)
Record Env := {
  Uri_file : string → Uri;
  fsPath : Uri → string;
  path_isAbsolute : string → bool;
  path_join : string → string → string;
  path_dirname : string → string;
  fs_existsSync : string → bool;
  cp_spawn : nat → string → list string → string → SpawnOutcome;
  getBinPath : string;
  additionalCommandLineArguments : TextDocument → string;
  langId : string
}.

(** [DiagnosticInfo] *)
Record DiagnosticInfo := {
  di_uri : Uri;
  di_range : Range;
  di_severity : DiagnosticSeverity;
  di_errMsg : string
}.

(** A timer armed by [setTimeout]; its callback is
    [() => execIntellisense(doc, diagCol, context)]. *)
Record Timer := { timerId : nat; due : nat; timerDoc : TextDocument }.

(** A call of [cp.spawn] and the child process it made: the arguments
    of the call, what the call came to, the text written to the child's
    standard input, the [doc] its listeners close over, whether [kill()]
    has been called on the child and whether its [close] event has been
    delivered.  A call that threw made no child; it stays in the list of
    calls, with [outcome] saying so. *)
Record ChildProcess := {
  spawnfile : string;
  spawnargs : list string;
  cwd : string;
  outcome : SpawnOutcome;
  stdin : string;
  procDoc : TextDocument;
  killed : bool;
  closed : bool
}.

(** The module's variables, the diagnostic collection handed to
    [subscribeIntellisense], and the part of the runtime they refer to:
    the clock, the pending timers in the order they were armed, and the
    calls of [cp.spawn] with their child processes, in the order they
    were made (a process handle is the position of its call in that
    list). *)
Record State := {
  intellisenseOutputChannel : option (list string);
  intellisenseProcess : option nat;
  timeout : option nat;
  diagCol : gmap Uri (list Diagnostic);
  now : nat;
  timers : list Timer;
  nextTimer : nat;
  processes : list ChildProcess;
  logged : list (LogLevel * string)
}.

Definition set_channel (v : option (list string)) (st : State) : State :=
  {| intellisenseOutputChannel := v; intellisenseProcess := intellisenseProcess st;
     timeout := timeout st; diagCol := diagCol st; now := now st; timers := timers st;
     nextTimer := nextTimer st; processes := processes st; logged := logged st |}.

Definition set_process (v : option nat) (st : State) : State :=
  {| intellisenseOutputChannel := intellisenseOutputChannel st; intellisenseProcess := v;
     timeout := timeout st; diagCol := diagCol st; now := now st; timers := timers st;
     nextTimer := nextTimer st; processes := processes st; logged := logged st |}.

Definition set_timeout (v : option nat) (st : State) : State :=
  {| intellisenseOutputChannel := intellisenseOutputChannel st;
     intellisenseProcess := intellisenseProcess st;
     timeout := v; diagCol := diagCol st; now := now st; timers := timers st;
     nextTimer := nextTimer st; processes := processes st; logged := logged st |}.

Definition set_diagCol (v : gmap Uri (list Diagnostic)) (st : State) : State :=
  {| intellisenseOutputChannel := intellisenseOutputChannel st;
     intellisenseProcess := intellisenseProcess st;
     timeout := timeout st; diagCol := v; now := now st; timers := timers st;
     nextTimer := nextTimer st; processes := processes st; logged := logged st |}.

Definition set_now (v : nat) (st : State) : State :=
  {| intellisenseOutputChannel := intellisenseOutputChannel st;
     intellisenseProcess := intellisenseProcess st;
     timeout := timeout st; diagCol := diagCol st; now := v; timers := timers st;
     nextTimer := nextTimer st; processes := processes st; logged := logged st |}.

Definition set_timers (v : list Timer) (n : nat) (st : State) : State :=
  {| intellisenseOutputChannel := intellisenseOutputChannel st;
     intellisenseProcess := intellisenseProcess st;
     timeout := timeout st; diagCol := diagCol st; now := now st; timers := v;
     nextTimer := n; processes := processes st; logged := logged st |}.

Definition set_processes (v : list ChildProcess) (st : State) : State :=
  {| intellisenseOutputChannel := intellisenseOutputChannel st;
     intellisenseProcess := intellisenseProcess st;
     timeout := timeout st; diagCol := diagCol st; now := now st; timers := timers st;
     nextTimer := nextTimer st; processes := v; logged := logged st |}.

Definition set_logged (v : list (LogLevel * string)) (st : State) : State :=
  {| intellisenseOutputChannel := intellisenseOutputChannel st;
     intellisenseProcess := intellisenseProcess st;
     timeout := timeout st; diagCol := diagCol st; now := now st; timers := timers st;
     nextTimer := nextTimer st; processes := processes st; logged := v |}.

(** The state when the module has been loaded and nothing has run. *)
Definition loaded : State :=
  {| intellisenseOutputChannel := None; intellisenseProcess := None; timeout := None;
     diagCol := ∅; now := 0%nat; timers := []; nextTimer := 0%nat; processes := [];
     logged := [] |}.

(** *** The runtime: logger, timers, child processes *)

(** Modelled from the spec: [logger(msg, level, true)] of [./util], the
  spec's logging sink for leveled messages; the message reaches the log. *)
Definition logger (msg : string) (level : LogLevel) (st : State) : State :=
  set_logged (logged st ++ [(level, msg)]) st.

(** [setTimeout(callback, delay)]: the new timer's handle and the state
    with the timer pending. *)
Definition setTimeout (doc : TextDocument) (delay : nat) (st : State) : nat * State :=
  let id := nextTimer st in
  (id, set_timers (timers st ++ [{| timerId := id; due := (now st + delay)%nat;
                                    timerDoc := doc |}]) (S id) st).

(** [clearTimeout(id)]: without effect when the timer has already run. *)
Definition clearTimeout (id : nat) (st : State) : State :=
  set_timers (filter (λ t, timerId t ≠ id) (timers st)) (nextTimer st) st.

(** [p.kill()]: the termination signal is sent to the child, which
    matters to a child that runs only; the [close] event of such a child
    follows later, from the event loop. *)
Definition kill (p : nat) (st : State) : State :=
  set_processes
    (alter (λ c, {| spawnfile := spawnfile c; spawnargs := spawnargs c; cwd := cwd c;
                    outcome := outcome c; stdin := stdin c; procDoc := procDoc c;
                    killed := true; closed := closed c |}) p (processes st)) st.

(** *** The source file *)

Variable env : Env.

(** [cp.spawn(bin, args, { cwd })] followed, when the call returns, by
    [stdin.write(text)] and [stdin.end()]: the handle of the new child
    or the exception, and the state with the call on record. *)
Definition spawn (bin : string) (args : list string) (dir text : string)
    (doc : TextDocument) (st : State) : result nat * State :=
  let what := cp_spawn env (now st) bin args dir in
  let written := match what with SpawnThrows _ => "" | _ => text end in
  (match what with SpawnThrows msg => Throw msg | _ => Ok (length (processes st)) end,
   set_processes (processes st ++ [{| spawnfile := bin; spawnargs := args; cwd := dir;
                                      outcome := what; stdin := written; procDoc := doc;
                                      killed := false; closed := false |}]) st).

(** [initIntellisense] *)
Definition initIntellisense (st : State) : State := set_channel (Some []) st.

(** [outputToChannel(msg, show)]; revealing the channel is not modelled. *)
Definition outputToChannel (msg : string) (st : State) : State :=
  match intellisenseOutputChannel st with
  | Some lines => set_channel (Some (lines ++ [msg])) st
  | None => logger ("Unable to output to Intellisense OutputChannel, " +:+ msg) warning st
  end.

(** [triggerIntellisense(doc, diagCol, context)] *)
Definition triggerIntellisense (doc : TextDocument) (st : State) : State :=
  let st :=
    match timeout st with
    | Some t => set_timeout None (clearTimeout t st)
    | None => st
    end in
  let '(t, st) := setTimeout doc 500 st in
  set_timeout (Some t) st.

(** [getDiagSeverity(s)] *)
Definition getDiagSeverity (s : string) : DiagnosticSeverity :=
  if String.eqb s "error" then Error
  else if String.eqb s "warning" then Warning
  else Error.

(** [addToDiagCol(diag, diagCol)] *)
Definition addToDiagCol (diag : DiagnosticInfo)
    (col : gmap Uri (list Diagnostic)) : gmap Uri (list Diagnostic) :=
  let diagnostic :=
    {| severity := di_severity diag; range := di_range diag; message := di_errMsg diag |} in
  let currentDiags := default [] (col !! di_uri diag) in
  let newDiags := currentDiags ++ [diagnostic] in
  <[di_uri diag := newDiags]> col.

(** [getUri(gotPath)], the closure inside [processIntellisenseErrors]. *)
Definition getUri (doc : TextDocument) (gotPath : string) : result Uri :=
  if String.eqb gotPath "-" then Ok (uri doc)
  else if path_isAbsolute env gotPath && fs_existsSync env gotPath
  then Ok (Uri_file env gotPath)
  else if fs_existsSync env (path_join env (path_dirname env (fsPath env (uri doc))) gotPath)
  then
    let absPath := path_join env (path_dirname env (fsPath env (uri doc))) gotPath in
    Ok (Uri_file env absPath)
  else Throw ("Error in `" +:+ gotPath +:+ "`").

(** The [try] block of the loop body: the diagnostic built from one
    match, or the exception. *)
Definition diagOfMatch (doc : TextDocument) (errGroup : RegExpExecArray) :
    result DiagnosticInfo :=
  match getUri doc (group 1 errGroup) with
  | Throw msg => Throw msg
  | Ok uri =>
      let lineNo := minus1 (Str.parseInt (group 2 errGroup)) in
      let charNo := minus1 (Str.parseInt (group 3 errGroup)) in
      let severity := getDiagSeverity (group 4 errGroup) in
      let errMsg := group 5 errGroup in
      Ok {| di_uri := uri;
            di_severity := severity;
            di_range := {| startLine := lineNo; startCol := Num 0;
                           endLine := lineNo; endCol := charNo |};
            di_errMsg := errMsg |}
  end.

(** The loop body: [try { ... addToDiagCol(diag, diagCol) } catch (err)
    { outputToChannel(...) }]. *)
Definition loopBody (output : string) (doc : TextDocument) (errGroup : RegExpExecArray)
    (st : State) : State :=
  match diagOfMatch doc errGroup with
  | Ok diag => set_diagCol (addToDiagCol diag (diagCol st)) st
  | Throw msg => outputToChannel ("Intellisense error: " +:+ msg +:+ ", " +:+ output) st
  end.

(** [while (errGroup = errMsgRegex.exec(output)) { ... }]; [from] is the
    part of [output] that starts at the regular expression's
    [lastIndex]. *)
Fixpoint whileExec (fuel : nat) (output from : string) (doc : TextDocument)
    (st : State) : State :=
  match fuel with
  | O => st
  | S fuel' =>
      match exec errMsgRegex from with
      | Some x =>
          let errGroup := groups x in
          whileExec fuel' output (rest x) doc (loopBody output doc errGroup st)
      | None => st
      end
  end.

(** [processIntellisenseErrors(output, doc, diagCol)].  [lastIndex] is 0
    on entry, because the loop of the previous call ran until [exec]
    answered [null]; every match consumes at least one character, so
    the loop ends within [length output] rounds (see
    [processIntellisenseErrors_fuel]). *)
Definition processIntellisenseErrors (output : string) (doc : TextDocument)
    (st : State) : State :=
  whileExec (S (String.length output)) output output doc st.

Definition intellisenseArgs : list string :=
  ["--loglevel=WARNING"; "--define-default=backend=null"; "-"].

(** [execIntellisense(doc, diagCol, context)]; the listeners it
    registers on the new process are [onStdout], [onStderr] and
    [onClose] below.  Of the calls in the [try] block it is [cp.spawn]
    that can throw; the assignment to [intellisenseProcess] is then not
    reached, and the [catch] block logs the error and writes it to the
    channel. *)
Definition execIntellisense (doc : TextDocument) (st : State) : State :=
  let st := set_diagCol ∅ st in
  let binPath := getBinPath env in
  let additionalArgs := Str.split_ws (Str.trim (additionalCommandLineArguments env doc)) in
  let args := additionalArgs ++ intellisenseArgs in
  let st :=
    match intellisenseProcess st with
    | Some p => set_process None (kill p st)
    | None => st
    end in
  match spawn binPath args (path_dirname env (fsPath env (uri doc))) (getText doc) doc st with
  | (Ok p, st) => set_process (Some p) st
  | (Throw msg, st) =>
      let errMsg := "Intellisense failed with error " +:+ msg in
      outputToChannel errMsg (logger errMsg error st)
  end.

(** [intellisenseProcess.stdout.on('data', ...)] *)
Definition onStdout (data : string) (st : State) : State :=
  logger ("Intellisense: no errors, " +:+ data) info st.

(** [intellisenseProcess.stderr.on('data', ...)] *)
Definition onStderr (doc : TextDocument) (data : string) (st : State) : State :=
  processIntellisenseErrors data doc st.

(** An exit code in a template literal: its decimal notation, and
    [null] for a child that a signal ended. *)
Definition showCode (code : option Z) : string :=
  match code with
  | Some n => NilZero.string_of_int (Z.to_int n)
  | None => "null"
  end.

(** [intellisenseProcess.on('close', ...)] *)
Definition onClose (code : option Z) (st : State) : State :=
  set_process None
    (logger ("Intellisense process exited with code " +:+ showCode code) info st).

(** [subscribeIntellisense(context, diagCol)], with the editor that is
    active at that moment; the three subscriptions are the handlers
    below. *)
Definition subscribeIntellisense (activeTextEditor : option TextDocument)
    (st : State) : State :=
  let st := initIntellisense st in
  match activeTextEditor with
  | Some document =>
      if String.eqb (languageId document) (langId env)
      then triggerIntellisense document st else st
  | None => st
  end.

Definition onDidChangeActiveTextEditor (editor : option TextDocument)
    (st : State) : State :=
  match editor with
  | Some document =>
      if String.eqb (languageId document) (langId env)
      then triggerIntellisense document st else st
  | None => st
  end.

Definition onDidChangeTextDocument (document : TextDocument) (st : State) : State :=
  if String.eqb (languageId document) (langId env)
  then triggerIntellisense document st else st.

Definition onDidCloseTextDocument (doc : TextDocument) (st : State) : State :=
  set_diagCol (delete (uri doc) (diagCol st)) st.

(** *** The event loop *)

Inductive Event :=
| DidChangeActiveTextEditor (editor : option TextDocument)
| DidChangeTextDocument (document : TextDocument)
| DidCloseTextDocument (doc : TextDocument)
| Elapse (ms : nat)
| StdoutData (p : nat) (data : string)
| StderrData (p : nat) (data : string)
| Close (p : nat) (code : option Z).

(** The timers that have come due run in the order they were armed
    (all are armed with the same delay). *)
Definition runTimers (st : State) : State :=
  let '(ready, waiting) := partition (λ t, bool_decide (due t ≤ now st)%nat) (timers st) in
  foldl (λ st t, execIntellisense (timerDoc t) st) (set_timers waiting (nextTimer st) st) ready.

Definition markClosed (p : nat) (st : State) : State :=
  set_processes
    (alter (λ c, {| spawnfile := spawnfile c; spawnargs := spawnargs c; cwd := cwd c;
                    outcome := outcome c; stdin := stdin c; procDoc := procDoc c;
                    killed := killed c; closed := true |}) p (processes st)) st.

(** A child whose listeners can still be called: it was started, and
    its [close] event has not been delivered. *)
Definition emits (c : ChildProcess) : bool :=
  match outcome c with
  | Spawned => negb (closed c)
  | _ => false
  end.

(** One turn of the event loop.  A child process emits data and its
    [close] event only when it was started, and before its [close]
    event; an event that cannot occur in the state has no successor. *)
Definition handle (ev : Event) (st : State) : option State :=
  match ev with
  | DidChangeActiveTextEditor editor => Some (onDidChangeActiveTextEditor editor st)
  | DidChangeTextDocument document => Some (onDidChangeTextDocument document st)
  | DidCloseTextDocument doc => Some (onDidCloseTextDocument doc st)
  | Elapse ms => Some (runTimers (set_now (now st + ms)%nat st))
  | StdoutData p data =>
      match processes st !! p with
      | Some c => if emits c then Some (onStdout data st) else None
      | None => None
      end
  | StderrData p data =>
      match processes st !! p with
      | Some c => if emits c then Some (onStderr (procDoc c) data st) else None
      | None => None
      end
  | Close p code =>
      match processes st !! p with
      | Some c => if emits c then Some (onClose code (markClosed p st)) else None
      | None => None
      end
  end.

Fixpoint run (evs : list Event) (st : State) : option State :=
  match evs with
  | [] => Some st
  | ev :: evs' =>
      match handle ev st with
      | Some st' => run evs' st'
      | None => None
      end
  end.

(** A process that was started and has neither been sent the
    termination signal nor closed. *)
Definition live (c : ChildProcess) : bool :=
  match outcome c with
  | Spawned => negb (killed c) && negb (closed c)
  | _ => false
  end.

Definition liveCount (st : State) : nat := length (filter (λ c, live c = true) (processes st)).

End Intellisense.

(** ** Specification-level notions *)

Module RegExpSpec.

(** The declarative reading of a regular expression: [matches r a c c']
    says that [r] matches exactly the text [a] and turns the captures
    [c] into [c']. *)
Fixpoint matches (r : regex) (a : string) (c c' : Captures) : Prop :=
  match r with
  | Lit l => a = l ∧ c' = c
  | Plus cls => a ≠ "" ∧ Str.all cls a = true ∧ c' = c
  | Alt r1 r2 => matches r1 a c c' ∨ matches r2 a c c'
  | Seq r1 r2 =>
      ∃ a1 a2 c1, a = a1 +:+ a2 ∧ matches r1 a1 c c1 ∧ matches r2 a2 c1 c'
  | Group n r' => ∃ c1, matches r' a c c1 ∧ c' = setCapture n a c1
  end.

(** [r] matches no text that contains the character [ch]. *)
Fixpoint rejects (ch : ascii) (r : regex) : bool :=
  match r with
  | Lit l => Str.all (λ c, negb (Ascii.eqb c ch)) l
  | Plus cls => negb (cls ch)
  | Alt r1 r2 | Seq r1 r2 => rejects ch r1 && rejects ch r2
  | Group _ r' => rejects ch r'
  end.

(** [r] matches no empty text. *)
Fixpoint nonempty (r : regex) : bool :=
  match r with
  | Lit l => negb (String.eqb l "")
  | Plus _ => true
  | Alt r1 r2 => nonempty r1 && nonempty r2
  | Seq r1 r2 => nonempty r1 || nonempty r2
  | Group _ r' => nonempty r'
  end.

(** [r] ends, whichever alternative is taken, in a greedy repetition of
    a class that accepts [ch]. *)
Fixpoint tailAccepts (r : regex) (ch : ascii) : bool :=
  match r with
  | Lit _ => false
  | Plus cls => cls ch
  | Alt r1 r2 => tailAccepts r1 ch && tailAccepts r2 ch
  | Seq _ r2 => tailAccepts r2 ch
  | Group _ r' => tailAccepts r' ch
  end.

(** A match with the input behind it extended by [tl]. *)
Definition extend (tl : string) (x : Match) : Match :=
  {| groups := groups x; rest := rest x +:+ tl |}.

End RegExpSpec.

Import RegExpSpec.

(** The number of colons in a text. *)
Fixpoint colons (s : string) : nat :=
  match s with
  | EmptyString => 0%nat
  | String c s' => ((if Ascii.eqb c ":" then 1 else 0) + colons s')%nat
  end.

(** The argument list in the spec's words, "trimmed, whitespace-split":
    the maximal runs of characters that are no white space, in the order
    they occur.  [cur] is the run being read. *)
Definition flushWord (cur : string) : list string :=
  match cur with
  | EmptyString => []
  | _ => [cur]
  end.

Fixpoint specWordsFrom (cur s : string) : list string :=
  match s with
  | EmptyString => flushWord cur
  | String c s' =>
      if Str.isSpace c then flushWord cur ++ specWordsFrom "" s'
      else specWordsFrom (cur +:+ String c "") s'
  end.

Definition specWords (s : string) : list string := specWordsFrom "" s.

(** The wire format of an error line,
    [<path>:<line>:<col>: (error|warning): <message>]. *)
Record Fields := {
  f_path : string;
  f_line : string;
  f_col : string;
  f_kind : string;
  f_msg : string
}.

Definition render (f : Fields) : string :=
  f_path f +:+ ":" +:+ f_line f +:+ ":" +:+ f_col f +:+ ": " +:+ f_kind f +:+ ": " +:+ f_msg f.

Definition wellFormed (f : Fields) : Prop :=
  (f_path f ≠ "" ∧ Str.all notNewline (f_path f) = true) ∧
  (f_line f ≠ "" ∧ Str.all Str.isDigit (f_line f) = true) ∧
  (f_col f ≠ "" ∧ Str.all Str.isDigit (f_col f) = true) ∧
  (f_kind f = "error" ∨ f_kind f = "warning") ∧
  (f_msg f ≠ "" ∧ Str.all notNewline (f_msg f) = true).

(** The number a string of decimal digits denotes, in positional
    notation: the digit in front of [n] others counts 10^n. *)
Fixpoint decimal (s : string) : Z :=
  match s with
  | EmptyString => 0
  | String c s' => Str.digitValue c * 10 ^ Z.of_nat (String.length s') + decimal s'
  end.

(** [errMsgRegex] behind the path group and its colon. *)
Definition errTail : regex :=
  Seq (Seq (Group 2 (Plus Str.isDigit)) (Seq (Lit ":")
           (Seq (Group 3 (Plus Str.isDigit)) (Lit ":"))))
  (Seq (Seq (Lit " ") (Seq (Group 4 (Alt (Lit "error") (Lit "warning"))) (Lit ":")))
       (Seq (Lit " ") (Group 5 (Plus notNewline)))).

Definition renderTail (f : Fields) : string :=
  f_line f +:+ ":" +:+ f_col f +:+ ": " +:+ f_kind f +:+ ": " +:+ f_msg f.

(** The array [exec] returns for a line read as the fields [f]. *)
Definition arrayOf (f : Fields) : RegExpExecArray :=
  [Some (render f); Some (f_path f); Some (f_line f); Some (f_col f);
   Some (f_kind f); Some (f_msg f)].

(** [pre] ends where a line starts, and [post] starts where a line ends. *)
Definition lineStart (pre : string) : Prop :=
  pre = "" ∨ ∃ p nl, pre = p +:+ String nl "" ∧ notNewline nl = false.

Definition lineEnd (post : string) : Prop :=
  post = "" ∨ ∃ nl t, post = String nl t ∧ notNewline nl = false.

(** [output] contains no text of the error-line format. *)
Definition noMatch (output : string) : Prop :=
  ∀ pre f post, wellFormed f → output ≠ pre +:+ render f +:+ post.

(** The [vscode.Diagnostic] that [addToDiagCol] stores for [diag]. *)
Definition diagnosticOf {Uri} (diag : @DiagnosticInfo Uri) : Diagnostic :=
  {| severity := di_severity diag; range := di_range diag; message := di_errMsg diag |}.

(** The diagnostics of the matches whose [try] block completes, and the
    channel lines of those whose [try] block throws, in match order. *)
Definition resolved `{Countable Uri} (env : @Env Uri) (doc : @TextDocument Uri)
    (gs : list RegExpExecArray) : list (@DiagnosticInfo Uri) :=
  omap (λ g, match diagOfMatch env doc g with Ok d => Some d | Throw _ => None end) gs.


(** The diagnostics stored for a file identity. *)
Definition diagsAt `{Countable Uri} (col : gmap Uri (list Diagnostic)) (u : Uri) :
    list Diagnostic :=
  default [] (col !! u).

(** A burst of triggers: a change of [d], then, each after [gap]
    milliseconds, the changes listed in [more]. *)
Definition burst {Uri} (d : @TextDocument Uri) (more : list (nat * @TextDocument Uri)) :
    list (@Event Uri) :=
  DidChangeTextDocument d ::
  flat_map (λ gd, [Elapse gd.1; DidChangeTextDocument gd.2]) more.

Definition lastDoc {Uri} (d : @TextDocument Uri) (more : list (nat * @TextDocument Uri)) :
    @TextDocument Uri :=
  List.last (snd <$> more) d.

(** The documents of the Process Runner invocations so far: each
    invocation calls [cp.spawn] once. *)
Definition invocations `{Countable Uri} (st : @State Uri _ _) : list (@TextDocument Uri) :=
  procDoc <$> processes st.

(** The call of [cp.spawn] that a run for [doc] makes at time [t], as
    it goes on record. *)
Definition spawnCall `{Countable Uri} (env : @Env Uri) (doc : @TextDocument Uri) (t : nat) :
    @ChildProcess Uri :=
  let bin := getBinPath env in
  let args := Str.split_ws (Str.trim (additionalCommandLineArguments env doc))
                ++ intellisenseArgs in
  let dir := path_dirname env (fsPath env (uri doc)) in
  let what := cp_spawn env t bin args dir in
  {| spawnfile := bin; spawnargs := args; cwd := dir; outcome := what;
     stdin := match what with SpawnThrows _ => "" | _ => getText doc end;
     procDoc := doc; killed := false; closed := false |}.

(** The handle a run stores for its call: none when the call threw. *)
Definition handleOf {Uri} (c : @ChildProcess Uri) (p : nat) : option nat :=
  match outcome c with
  | SpawnThrows _ => None
  | _ => Some p
  end.

(** The states the extension can be in: those that events lead to from
    activation. *)
Definition reachable `{Countable Uri} (env : @Env Uri) (st : @State Uri _ _) : Prop :=
  ∃ active evs, run env evs (subscribeIntellisense env active loaded) = Some st.

(** At most one timer is pending, and [timeout] refers to it. *)
Definition timersOk `{Countable Uri} (st : @State Uri _ _) : Prop :=
  timers st = [] ∨ ∃ t, timers st = [t] ∧ timeout st = Some (timerId t).

(** The state right after a trigger: one timer is pending, for [d], due a
    full quiet interval from now; [P] are the invocations so far. *)
Definition armed `{Countable Uri} (P : list (@TextDocument Uri)) (d : @TextDocument Uri)
    (st : @State Uri _ _) : Prop :=
  (∃ t, timers st = [t] ∧ timeout st = Some (timerId t) ∧ timerDoc t = d ∧
        due t = (now st + 500)%nat) ∧
  invocations st = P.

(** ** A concrete environment

    File identities are paths; a POSIX-like [path] module over a file
    system that holds exactly [files]; every document lives in [/home/u]
    and is configured with the additional arguments [args]; the
    compiler is configured as [bin], and the one program installed is
    [lilypond].  [cp.spawn] throws for an empty file name, as Node does,
    and fails for a program that is not installed. *)
Definition posixWith (files : list string) (args bin : string) : @Env string :=
  {| Uri_file := λ p, p;
     fsPath := λ u, u;
     path_isAbsolute := λ p, match p with String "/" _ => true | _ => false end;
     path_join := λ a b, match b with String "/" _ => a +:+ b | _ => a +:+ "/" +:+ b end;
     path_dirname := λ _, "/home/u";
     fs_existsSync := λ p, bool_decide (p ∈ files);
     cp_spawn := λ _ file _ _,
       if String.eqb file "" then SpawnThrows "The argument 'file' cannot be empty. Received ''"
       else if String.eqb file "lilypond" then Spawned
       else SpawnFails;
     getBinPath := bin;
     additionalCommandLineArguments := λ _, args;
     langId := "lilypond" |}.

Definition posix (files : list string) (args : string) : @Env string :=
  posixWith files args "lilypond".

Definition score : @TextDocument string :=
  {| uri := "/home/u/score.ly"; languageId := "lilypond"; getText := "{ c' }" |}.

Definition parts : @TextDocument string :=
  {| uri := "/home/u/parts.ly"; languageId := "lilypond"; getText := "{ d' }" |}.

(** The extension activated with the output channel ready and no editor
    open. *)
Definition activated : @State string _ _ := subscribeIntellisense (posix [] "") None loaded.

(** The spec's example line, [/abs/path.ly:12:5: error: bad note]. *)
Definition badNote : Fields :=
  {| f_path := "/abs/path.ly"; f_line := "12"; f_col := "5";
     f_kind := "error"; f_msg := "bad note" |}.

(** A state with a diagnostic of an earlier run in the store. *)
Definition stale : @State string _ _ :=
  processIntellisenseErrors (posix [] "") "-:1:1: warning: old" score activated.

(** Three runs, the second of which is still going when the third
    starts: the first process is killed by the second run, and its
    [close] event arrives before the third run. *)
Definition staleClose : list (@Event string) :=
  [DidChangeTextDocument score; Elapse 500;
   DidChangeTextDocument score; Elapse 500;
   Close 0 None;
   DidChangeTextDocument score; Elapse 500].

(** ** Notions for the further properties *)

(** The shape of the diagnostics the parser builds: a range on one line
    that starts in column 0, line and end column not below -1 (the
    value for a reported 0), severity [Error] or [Warning], and a
    message that is a non-empty piece of one line. *)
Definition parserShaped (d : Diagnostic) : Prop :=
  startLine (range d) = endLine (range d) ∧ startCol (range d) = Num 0 ∧
  number_le (Num (-1)) (startLine (range d)) ∧ number_le (Num (-1)) (endCol (range d)) ∧
  (severity d = Error ∨ severity d = Warning) ∧
  (message d ≠ "" ∧ Str.all notNewline (message d) = true).

(** The process handle, when set, is the child that the last call of
    [cp.spawn] returned; [kill()] has not been called on that child, and
    its [close] event has not been delivered. *)
Definition handleOk `{Countable Uri} (st : @State Uri _ _) : Prop :=
  ∀ p, intellisenseProcess st = Some p →
    S p = length (processes st) ∧
    ∃ c, processes st !! p = Some c ∧ killed c = false ∧ closed c = false ∧
         (outcome c = Spawned ∨ outcome c = SpawnFails).

(** A pending timer is not overdue, and due within the quiet interval. *)
Definition timersDue `{Countable Uri} (st : @State Uri _ _) : Prop :=
  ∀ t, t ∈ timers st → (now st < due t ∧ due t ≤ now st + 500)%nat.

(** The events whose handler calls [triggerIntellisense]. *)
Definition isTrigger {Uri} (env : @Env Uri) (ev : @Event Uri) : bool :=
  match ev with
  | DidChangeActiveTextEditor (Some d) | DidChangeTextDocument d =>
      String.eqb (languageId d) (langId env)
  | _ => false
  end.

Definition triggers {Uri} (env : @Env Uri) (evs : list (@Event Uri)) : nat :=
  length (filter (λ ev, isTrigger env ev = true) evs).

(** The messages of the calls of [cp.spawn] that threw, and the entry
    that the [catch] block of [execIntellisense] logs for such a
    message. *)
Definition thrown {Uri} (ps : list (@ChildProcess Uri)) : list string :=
  omap (λ c, match outcome c with SpawnThrows msg => Some msg | _ => None end) ps.

Definition failureEntry (msg : string) : LogLevel * string :=
  (error, "Intellisense failed with error " +:+ msg).

(** The output channel exists, and what was logged above level [info]
    are the entries of the calls of [cp.spawn] that threw, in order. *)
Definition channelOk `{Countable Uri} (st : @State Uri _ _) : Prop :=
  is_Some (intellisenseOutputChannel st) ∧
  filter (λ e, e.1 ≠ info) (logged st) = failureEntry <$> thrown (processes st).

(** A state with a compile going on, one with a timer pending, and one
    in which the running process has lost its handle to the [close]
    event of its predecessor. *)
Definition running : @State string _ _ :=
  default activated (run (posix [] "") [DidChangeTextDocument score; Elapse 500] activated).

Definition pending : @State string _ _ :=
  default activated (run (posix [] "") [DidChangeTextDocument score; Elapse 200] activated).

Definition orphaned : @State string _ _ :=
  default activated
    (run (posix [] "")
       [DidChangeTextDocument score; Elapse 500;
        DidChangeTextDocument score; Elapse 500; Close 0 None] activated).

(** The state after the events [staleClose], and the state four events
    after [orphaned]. *)
Definition raced : @State string _ _ :=
  default activated (run (posix [] "") staleClose activated).

Definition twoRunsOn : list (@Event string) :=
  [DidChangeTextDocument score; Elapse 500; DidChangeTextDocument parts; Elapse 500].

Definition afterOrphaned : @State string _ _ :=
  default orphaned (run (posix [] "") twoRunsOn orphaned).

(** An editor whose configured compiler, [lilypond-2.18], is not
    installed, after one run: the handle is on a child that never ran. *)
Definition notInstalled : @Env string := posixWith [] "" "lilypond-2.18".

Definition neverRan : @State string _ _ :=
  default activated (run notInstalled [DidChangeTextDocument score; Elapse 500] activated).

(** An editor in which [cp.spawn] works at first and throws from the
    second second on; two runs, the first one's child writing to its
    standard output and closing with exit code 1 in between. *)
Definition outOfMemory : @Env string :=
  {| Uri_file := Uri_file (posix [] "");
     fsPath := fsPath (posix [] "");
     path_isAbsolute := path_isAbsolute (posix [] "");
     path_join := path_join (posix [] "");
     path_dirname := path_dirname (posix [] "");
     fs_existsSync := fs_existsSync (posix [] "");
     cp_spawn := λ t _ _ _, if (t <? 1000)%nat then Spawned else SpawnThrows "spawn ENOMEM";
     getBinPath := "lilypond";
     additionalCommandLineArguments := λ _, "";
     langId := "lilypond" |}.

Definition secondRunThrows : list (@Event string) :=
  [DidChangeTextDocument score; Elapse 500; StdoutData 0 "ok"; Close 0 (Some 1);
   DidChangeTextDocument score; Elapse 500].

Definition afterThrow : @State string _ _ :=
  default activated (run outOfMemory secondRunThrows activated).

(** ** Tactics *)

(** Takes the existentials, conjunctions and disjunctions among the
    hypotheses apart. *)
Ltac break :=
  repeat match goal with
  | H : ∃ _, _ |- _ => destruct H as [? H]
  | H : _ ∧ _ |- _ => destruct H as [? ?]
  | H : _ ∨ _ |- _ => destruct H as [H | H]
  end; subst.


(** * Properties *)

(** ** Numbers *)

Section NumberFacts.

(** Up to 2^53 every integer is a double. *)
Lemma toNumber_exact (z : Z) : Z.abs z ≤ 2 ^ 53 → toNumber z = Num z.
Proof.
  intros Hz. destruct (decide (Z.abs z = 2 ^ 53)) as [Heq | Hne].
  - destruct (Z.abs_eq_or_opp z) as [Habs | Habs]; rewrite Habs in Heq.
    + subst z. vm_compute. reflexivity.
    + assert (z = - 2 ^ 53) as -> by lia. vm_compute. reflexivity.
  - unfold toNumber.
    assert (Z.log2 (Z.abs z) < 53) as Hlog.
    { destruct (decide (Z.abs z = 0)) as [-> | H0]; [simpl; lia|].
      apply Z.log2_lt_pow2; lia. }
    by rewrite (proj2 (Z.leb_le _ _)) by lia.
Qed.

(** Beyond, the result is a multiple of the weight [2^e] of the last
    significant bit, at most half of that weight away. *)
Lemma toNumber_near (z m : Z) :
  toNumber z = Num m →
  let e := Z.max 0 (Z.log2 (Z.abs z) - 52) in
  (2 ^ e | m) ∧ 2 * Z.abs (m - z) ≤ 2 ^ e.
Proof.
  intros Hm e. unfold toNumber in Hm. cbv zeta in Hm.
  destruct (Z.leb_spec (Z.log2 (Z.abs z) - 52) 0) as [Hle|Hgt].
  - injection Hm as <-. unfold e. rewrite Z.max_l by lia. simpl.
    split; [apply Z.divide_1_l | lia].
  - unfold e. rewrite Z.max_r by lia. clear e.
    set (e := Z.log2 (Z.abs z) - 52) in *.
    rewrite Z.shiftr_div_pow2, Z.land_ones, !Z.shiftl_mul_pow2 in Hm by lia.
    set (a := Z.abs z) in *. set (p := 2 ^ e) in *.
    assert (0 < p) as Hp by (apply Z.pow_pos_nonneg; lia).
    assert (2 ^ (e - 1) * 2 = p) as Hhalf.
    { unfold p. replace e with (Z.succ (e - 1)) at 2 by lia.
      rewrite Z.pow_succ_r by lia. lia. }
    rewrite !Z.mul_1_l in Hm.
    set (h := 2 ^ (e - 1)) in *.
    pose proof (Z.div_mod a p ltac:(lia)) as Hdm.
    pose proof (Z.mod_pos_bound a p Hp) as Hr.
    set (q := a / p) in *. set (r := a mod p) in *.
    destruct (_ <=? _) in Hm; [by destruct (z <? 0)|].
    injection Hm as <-.
    split.
    { apply Z.divide_mul_r, Z.divide_mul_r. apply Z.divide_refl. }
    set (q' := if (r <? h) || (r =? h) && Z.even q then q else q + 1).
    assert (Z.abs (q' * p - a) * 2 ≤ p) as Hnear.
    { unfold q'. destruct (Z.ltb_spec r h); simpl; [nia|].
      destruct (Z.eqb_spec r h); simpl; [destruct (Z.even q); nia | nia]. }
    assert (0 ≤ q' * p) as Hpos.
    { assert (0 ≤ q) by (apply Z.div_pos; lia).
      unfold q'. destruct ((r <? h) || (r =? h) && Z.even q); nia. }
    unfold a in *. destruct z; simpl in *; lia.
Qed.

Lemma toNumber_nonneg (z : Z) : 0 ≤ z → number_le (Num 0) (toNumber z).
Proof.
  intros Hz. unfold toNumber. cbv zeta.
  destruct (_ <=? 0); [simpl; lia|].
  rewrite (proj2 (Z.ltb_ge z 0) Hz).
  destruct (_ <=? _); [done|]. simpl.
  match goal with |- 0 ≤ _ * Z.shiftl ?q ?e => assert (0 ≤ Z.shiftl q e) end.
  { apply Z.shiftl_nonneg.
    assert (0 ≤ Z.shiftr (Z.abs z) (Z.log2 (Z.abs z) - 52))
      by (apply Z.shiftr_nonneg; lia).
    destruct (_ || _); lia. }
  apply Z.mul_nonneg_nonneg; [by apply Z.sgn_nonneg | done].
Qed.

Lemma minus1_exact (z : Z) : - 2 ^ 53 < z ≤ 2 ^ 53 → minus1 (Num z) = Num (z - 1).
Proof. intros Hz. simpl. apply toNumber_exact. lia. Qed.

Lemma minus1_nonneg (x : number) : number_le (Num 0) x → number_le (Num (-1)) (minus1 x).
Proof.
  destruct x as [z| |]; simpl; [|done..]. intros Hz.
  destruct (decide (z = 0)) as [-> | Hne]; [by vm_compute|].
  pose proof (toNumber_nonneg (z - 1) ltac:(lia)) as Hle.
  destruct (toNumber (z - 1)); simpl in *; (done || lia).
Qed.

(** *** [parseInt] *)

(** On a string of digits [parseDigits] computes the number the string
    denotes. *)
Lemma parseDigits_decimal (s : string) (acc : Z) :
  Str.all Str.isDigit s = true →
  Str.parseDigits acc s = acc * 10 ^ Z.of_nat (String.length s) + decimal s.
Proof.
  revert acc. induction s as [|c s IH]; intros acc Hs;
    cbn [decimal Str.all Str.parseDigits String.length] in *.
  - simpl. lia.
  - apply andb_prop in Hs as [-> Hs]. rewrite IH by done.
    rewrite Nat2Z.inj_succ, Z.pow_succ_r by lia. lia.
Qed.

Lemma decimal_nonneg (s : string) : Str.all Str.isDigit s = true → 0 ≤ decimal s.
Proof.
  induction s as [|c s IH]; cbn [decimal Str.all]; [done|]. intros [Hc Hs]%andb_prop.
  specialize (IH Hs). unfold Str.isDigit in Hc. apply andb_prop in Hc as [H1%N.leb_le _].
  unfold Str.digitValue.
  assert (0 ≤ 10 ^ Z.of_nat (String.length s)) by (apply Z.pow_nonneg; lia). nia.
Qed.

(** [parseInt] of a string of digits is the Number value for the number
    the string denotes: that number itself up to 2^53. *)
Lemma parseInt_decimal (s : string) :
  Str.all Str.isDigit s = true → Str.parseInt s = toNumber (decimal s).
Proof. intros Hs. unfold Str.parseInt. by rewrite parseDigits_decimal. Qed.

Lemma parseInt_exact (s : string) :
  Str.all Str.isDigit s = true → decimal s ≤ 2 ^ 53 → Str.parseInt s = Num (decimal s).
Proof.
  intros Hs Hle. rewrite parseInt_decimal by done.
  pose proof (decimal_nonneg s Hs). apply toNumber_exact. lia.
Qed.

(** The 0-based number for a 1-based one on the wire. *)
Lemma zeroBased_exact (s : string) :
  Str.all Str.isDigit s = true → decimal s ≤ 2 ^ 53 →
  minus1 (Str.parseInt s) = Num (decimal s - 1).
Proof.
  intros Hs Hle. rewrite parseInt_exact by done.
  pose proof (decimal_nonneg s Hs). apply minus1_exact. lia.
Qed.

Lemma parseInt_nonneg (s : string) :
  Str.all Str.isDigit s = true → number_le (Num 0) (Str.parseInt s).
Proof.
  intros Hs. rewrite parseInt_decimal by done. by apply toNumber_nonneg, decimal_nonneg.
Qed.

(** [parseInt] reads back what the decimal notation of the standard
    library writes. *)
Lemma parseDigits_string_of_uint (d : Decimal.uint) (acc : nat) :
  Str.parseDigits (Z.of_nat acc) (NilEmpty.string_of_uint d) =
  Z.of_nat (Nat.of_uint_acc d acc).
Proof.
  revert acc. induction d as [|d IH|d IH|d IH|d IH|d IH|d IH|d IH|d IH|d IH|d IH];
    intros acc; [done|..]; cbn [NilEmpty.string_of_uint Str.parseDigits Nat.of_uint_acc];
    change (Str.isDigit _) with true; cbv iota; rewrite <- IH; f_equal;
    rewrite Nat.tail_mul_spec; unfold Str.digitValue; simpl N_of_ascii; lia.
Qed.

Lemma parseInt_to_uint (n : nat) :
  Str.parseInt (NilZero.string_of_uint (Nat.to_uint n)) = toNumber (Z.of_nat n).
Proof.
  unfold Str.parseInt. f_equal.
  assert (∀ d, Str.parseDigits 0 (NilZero.string_of_uint d) = Z.of_nat (Nat.of_uint d)) as Hd.
  { intros d. unfold NilZero.string_of_uint, Nat.of_uint.
    destruct d; try apply (parseDigits_string_of_uint _ 0). reflexivity. }
  by rewrite Hd, DecimalNat.Unsigned.of_to.
Qed.

(** From 2^53 on the parsed number is a rounded one, and a long enough
    string of digits is read as [Infinity]; taking 1 off a double
    beyond 2^53 may leave it as it is or take off 2. *)
Example parseInt_rounds :
  Str.parseInt "9007199254740992" = Num 9007199254740992 ∧
  Str.parseInt "9007199254740993" = Num 9007199254740992 ∧
  Str.parseInt "9007199254740995" = Num 9007199254740996 ∧
  minus1 (Str.parseInt "9007199254740993") = Num 9007199254740991 ∧
  minus1 (Str.parseInt "9007199254740994") = Num 9007199254740992 ∧
  minus1 (Str.parseInt "9007199254740996") = Num 9007199254740996 ∧
  minus1 (Str.parseInt "0") = Num (-1) ∧
  Str.parseInt "0012" = Num 12 ∧
  Str.parseInt (String.concat "" (replicate 31 "1234567890")) = Infinity ∧
  minus1 Infinity = Infinity.
Proof. repeat split; vm_compute; reflexivity. Qed.

End NumberFacts.

(** ** Strings *)

Section StringFacts.

Lemma append_nil_r (s : string) : s +:+ "" = s.
Proof. induction s as [|c s IH]; simpl; [done | by rewrite IH]. Qed.

Lemma append_assoc (a b c : string) : (a +:+ b) +:+ c = a +:+ b +:+ c.
Proof. induction a as [|x a IH]; simpl; [done | by rewrite IH]. Qed.

Lemma append_snoc (a : string) (c : ascii) (b : string) :
  (a +:+ String c "") +:+ b = a +:+ String c b.
Proof. by rewrite append_assoc. Qed.

Lemma append_length (a b : string) :
  String.length (a +:+ b) = (String.length a + String.length b)%nat.
Proof. induction a as [|x a IH]; simpl; [done | by rewrite IH]. Qed.

Lemma append_eq_nil (a b : string) : a +:+ b = "" → a = "" ∧ b = "".
Proof. by destruct a. Qed.

Lemma all_append cls (a b : string) :
  Str.all cls (a +:+ b) = Str.all cls a && Str.all cls b.
Proof. induction a as [|x a IH]; simpl; [done | by rewrite IH, andb_assoc]. Qed.

(** Two splits of one text: one of the two prefixes extends the other. *)
Lemma append_eq_append (a b a' b' : string) :
  a +:+ b = a' +:+ b' →
  (∃ e, a' = a +:+ e ∧ b = e +:+ b') ∨ (∃ e, a = a' +:+ e ∧ b' = e +:+ b).
Proof.
  revert a'. induction a as [|x a IH]; intros a' Heq; simpl in *.
  - left. by exists a'.
  - destruct a' as [|y a']; simpl in *.
    + right. by exists (String x a).
    + injection Heq as -> Heq. destruct (IH _ Heq) as [[e [-> ->]]|[e [-> ->]]].
      * left. by exists e.
      * right. by exists e.
Qed.

(** The split of a text at its first character outside [cls] is unique. *)
Lemma split_at_first (cls : ascii → bool) (a b a' b' : string) :
  a +:+ b = a' +:+ b' →
  Str.all cls a = true → Str.all cls a' = true →
  (∀ c t, b = String c t → cls c = false) →
  (∀ c t, b' = String c t → cls c = false) →
  a = a' ∧ b = b'.
Proof.
  intros Heq Ha Ha' Hb Hb'.
  destruct (append_eq_append _ _ _ _ Heq) as [[e [-> ->]]|[e [-> ->]]].
  - destruct e as [|c e]; [by rewrite append_nil_r|].
    rewrite all_append in Ha'. simpl in Ha'. rewrite (Hb c (e +:+ b')) in Ha' by done.
    by rewrite andb_false_r in Ha'.
  - destruct e as [|c e]; [by rewrite append_nil_r|].
    rewrite all_append in Ha. simpl in Ha. rewrite (Hb' c (e +:+ b)) in Ha by done.
    by rewrite andb_false_r in Ha.
Qed.

End StringFacts.

(** ** The matcher *)

Section MatcherFacts.

Lemma strip_Some (l s s' : string) : strip l s = Some s' ↔ s = l +:+ s'.
Proof.
  revert s. induction l as [|a l IH]; intros s; simpl.
  - split; congruence.
  - destruct s as [|b s]; [done|].
    destruct (Ascii.eqb_spec a b) as [->|Hne].
    + rewrite IH. split; congruence.
    + split; [done | congruence].
Qed.

Lemma strip_app (l s : string) : strip l (l +:+ s) = Some s.
Proof. by apply strip_Some. Qed.

Section Star.
Context {R : Type} (cls : ascii → bool) (k : string → string → option R).

(** A result of [star] comes from the continuation, after some run
    of characters of the class. *)
Lemma star_sound (acc s : string) (x : R) :
  star cls acc s k = Some x →
  ∃ a b, s = a +:+ b ∧ Str.all cls a = true ∧ k (acc +:+ a) b = Some x.
Proof.
  revert acc. induction s as [|c s IH]; intros acc; simpl.
  - intros Hk. exists "", "". simpl; by rewrite ?append_nil_r.
  - destruct (cls c) eqn:Hc.
    + destruct (star cls (acc +:+ String c "") s k) as [r|] eqn:Hs.
      * intros [= ->]. destruct (IH _ Hs) as (a & b & -> & Ha & Hk).
        exists (String c a), b. simpl. rewrite Hc, Ha.
        by rewrite append_snoc in Hk.
      * intros Hk. exists "", (String c s). simpl; by rewrite ?append_nil_r.
    + intros Hk. exists "", (String c s). simpl; by rewrite ?append_nil_r.
Qed.

(** Where the continuation succeeds right away, [star] succeeds. *)
Lemma star_here (acc s : string) :
  is_Some (k acc s) → is_Some (star cls acc s k).
Proof.
  intros Hk. destruct s as [|c s]; simpl; [done|].
  destruct (cls c); [|done]. by destruct (star cls _ s k).
Qed.

(** Backtracking is exhaustive: [star] finds a match when there is one. *)
Lemma star_complete (a b acc : string) :
  Str.all cls a = true → is_Some (k (acc +:+ a) b) →
  is_Some (star cls acc (a +:+ b) k).
Proof.
  revert acc. induction a as [|c a IH]; intros acc Ha Hk; simpl in *.
  - rewrite append_nil_r in Hk. by apply star_here.
  - apply andb_prop in Ha as [Hc Ha]. rewrite Hc.
    destruct (IH (acc +:+ String c "") Ha) as [x ->]; [|done].
    by rewrite append_snoc.
Qed.

(** Greed: the run taken is the longest for which the continuation
    succeeds. *)
Lemma star_longest (acc s : string) (x : R) :
  star cls acc s k = Some x →
  ∃ a b, s = a +:+ b ∧ Str.all cls a = true ∧ k (acc +:+ a) b = Some x ∧
    ∀ a' b', s = a' +:+ b' → Str.all cls a' = true →
      is_Some (k (acc +:+ a') b') → (String.length a' ≤ String.length a)%nat.
Proof.
  revert acc. induction s as [|c s IH]; intros acc; simpl.
  - intros Hk. exists "", "". simpl; rewrite ?append_nil_r. repeat split; try done.
    intros a' b' Heq _ _. symmetry in Heq. apply append_eq_nil in Heq as [-> _]. done.
  - destruct (cls c) eqn:Hc.
    + destruct (star cls (acc +:+ String c "") s k) as [r|] eqn:Hs.
      * intros [= ->]. destruct (IH _ Hs) as (a & b & -> & Ha & Hk & Hmax).
        exists (String c a), b. simpl. rewrite Hc, Ha.
        rewrite append_snoc in Hk. repeat split; try done.
        intros a' b' Heq Ha' Hk'. destruct a' as [|c' a']; simpl in *; [lia|].
        injection Heq as <- Heq. apply andb_prop in Ha' as [_ Ha'].
        apply le_n_S, (Hmax a' b'); try done. by rewrite append_snoc.
      * intros Hk. exists "", (String c s). simpl; rewrite ?append_nil_r. repeat split; try done.
        intros a' b' Heq Ha' Hk'. destruct a' as [|c' a']; simpl in *; [lia|].
        injection Heq as <- Heq. apply andb_prop in Ha' as [_ Ha']. subst s.
        assert (is_Some (star cls (acc +:+ String c "") (a' +:+ b') k)) as [? Hsome].
        { apply star_complete; [done|]. by rewrite append_snoc. }
        congruence.
    + intros Hk. exists "", (String c s). simpl; rewrite ?append_nil_r. repeat split; try done.
      intros a' b' Heq Ha' _. destruct a' as [|c' a']; simpl in *; [lia|].
      injection Heq as <- _. by rewrite Hc in Ha'.
Qed.

(** With a continuation that never fails the run taken is maximal. *)
Lemma star_total (acc s : string) (x : R) :
  (∀ a b, is_Some (k a b)) →
  star cls acc s k = Some x →
  ∃ a b, s = a +:+ b ∧ Str.all cls a = true ∧ k (acc +:+ a) b = Some x ∧
    ∀ c t, b = String c t → cls c = false.
Proof.
  intros Htot. revert acc. induction s as [|c s IH]; intros acc; simpl.
  - intros Hk. exists "", "". simpl; by rewrite ?append_nil_r.
  - destruct (cls c) eqn:Hc.
    + destruct (star_here (acc +:+ String c "") s (Htot _ _)) as [r Hs]. rewrite Hs.
      intros [= ->]. destruct (IH _ Hs) as (a & b & -> & Ha & Hk & Hb).
      exists (String c a), b. simpl. rewrite Hc, Ha. by rewrite append_snoc in Hk.
    + intros Hk. exists "", (String c s). simpl; rewrite ?append_nil_r. repeat split; try done.
      by intros c' t [= -> ->].
Qed.

Lemma plus_sound (s : string) (x : R) :
  plus cls s k = Some x →
  ∃ a b, s = a +:+ b ∧ a ≠ "" ∧ Str.all cls a = true ∧ k a b = Some x.
Proof.
  destruct s as [|c s]; simpl; [done|]. destruct (cls c) eqn:Hc; [|done].
  intros Hs. destruct (star_sound _ _ _ Hs) as (a & b & -> & Ha & Hk).
  exists (String c a), b. simpl in *. by rewrite Hc, Ha.
Qed.

Lemma plus_complete (a b : string) :
  a ≠ "" → Str.all cls a = true → is_Some (k a b) → is_Some (plus cls (a +:+ b) k).
Proof.
  destruct a as [|c a]; [done|]. simpl. intros _ Ha Hk.
  apply andb_prop in Ha as [-> Ha]. by apply star_complete.
Qed.

Lemma plus_longest (s : string) (x : R) :
  plus cls s k = Some x →
  ∃ a b, s = a +:+ b ∧ a ≠ "" ∧ Str.all cls a = true ∧ k a b = Some x ∧
    ∀ a' b', s = a' +:+ b' → a' ≠ "" → Str.all cls a' = true →
      is_Some (k a' b') → (String.length a' ≤ String.length a)%nat.
Proof.
  destruct s as [|c s]; simpl; [done|]. destruct (cls c) eqn:Hc; [|done].
  intros Hs. destruct (star_longest _ _ _ Hs) as (a & b & -> & Ha & Hk & Hmax).
  exists (String c a), b. simpl in *. rewrite Hc, Ha. repeat split; try done.
  intros a' b' Heq Hne Ha' Hk'. destruct a' as [|c' a']; [done|]. simpl in *.
  injection Heq as <- Heq. apply andb_prop in Ha' as [_ Ha'].
  by apply le_n_S, (Hmax a' b').
Qed.

Lemma plus_total (s : string) (x : R) :
  (∀ a b, is_Some (k a b)) →
  plus cls s k = Some x →
  ∃ a b, s = a +:+ b ∧ a ≠ "" ∧ Str.all cls a = true ∧ k a b = Some x ∧
    ∀ c t, b = String c t → cls c = false.
Proof.
  intros Htot. destruct s as [|c s]; simpl; [done|]. destruct (cls c) eqn:Hc; [|done].
  intros Hs. destruct (star_total _ _ _ Htot Hs) as (a & b & -> & Ha & Hk & Hb).
  exists (String c a), b. simpl in *. by rewrite Hc, Ha.
Qed.

End Star.

End MatcherFacts.

(** ** [trim] and [split] *)

Section SplitFacts.

Lemma rev_onto_append (s acc : string) : Str.rev_onto s acc = Str.rev s +:+ acc.
Proof.
  unfold Str.rev. revert acc. induction s as [|c s IH]; intros acc; simpl; [done|].
  rewrite (IH (String c acc)), (IH (String c "")). by rewrite append_snoc.
Qed.

Lemma rev_cons (c : ascii) (s : string) : Str.rev (String c s) = Str.rev s +:+ String c "".
Proof. unfold Str.rev at 1. simpl. apply rev_onto_append. Qed.

Lemma rev_append (a b : string) : Str.rev (a +:+ b) = Str.rev b +:+ Str.rev a.
Proof.
  induction a as [|c a IH]; simpl.
  - by rewrite append_nil_r.
  - by rewrite !rev_cons, IH, append_assoc.
Qed.

Lemma rev_involutive (s : string) : Str.rev (Str.rev s) = s.
Proof.
  induction s as [|c s IH]; [done|]. by rewrite rev_cons, rev_append, IH.
Qed.

Lemma all_rev cls (s : string) : Str.all cls (Str.rev s) = Str.all cls s.
Proof.
  induction s as [|c s IH]; [done|]. rewrite rev_cons, all_append, IH. simpl.
  by rewrite andb_true_r, andb_comm.
Qed.

(** [trimStart] cuts a run of white space off the front, up to the
    first character that is none. *)
Lemma trimStart_spec (s : string) :
  ∃ ws, s = ws +:+ Str.trimStart s ∧ Str.all Str.isSpace ws = true ∧
        ∀ c t, Str.trimStart s = String c t → Str.isSpace c = false.
Proof.
  induction s as [|c s (ws & Hs & Hws & Hhead)]; simpl.
  - by exists "".
  - destruct (Str.isSpace c) eqn:Hc.
    + exists (String c ws). simpl. rewrite Hc, Hws. split; [by rewrite <- Hs | done].
    + exists "". split; [done|]. split; [done|]. by intros c' t [= <- _].
Qed.

(** [trimEnd] cuts a run of white space off the end, back to the last
    character that is none. *)
Lemma trimEnd_spec (s : string) :
  ∃ ws, s = Str.trimEnd s +:+ ws ∧ Str.all Str.isSpace ws = true ∧
        ∀ a c, Str.trimEnd s = a +:+ String c "" → Str.isSpace c = false.
Proof.
  unfold Str.trimEnd. destruct (trimStart_spec (Str.rev s)) as (ws & Hs & Hws & Hhead).
  exists (Str.rev ws). split; [|split].
  - rewrite <- rev_append, <- Hs. by rewrite rev_involutive.
  - by rewrite all_rev.
  - intros a c Ha. apply (Hhead c (Str.rev a)).
    rewrite <- (rev_involutive (Str.trimStart (Str.rev s))), Ha.
    by rewrite rev_append.
Qed.

Lemma trimStart_solid (s : string) :
  (∀ c t, s = String c t → Str.isSpace c = false) → Str.trimStart s = s.
Proof. destruct s as [|c s]; [done|]. intros Hc. simpl. by rewrite (Hc c s). Qed.

Lemma flushWord_nonempty (cur : string) : cur ≠ "" → flushWord cur = [cur].
Proof. by destruct cur. Qed.

Lemma specWordsFrom_blank (cur ws : string) :
  Str.all Str.isSpace ws = true → specWordsFrom cur ws = flushWord cur.
Proof.
  revert cur. induction ws as [|c ws IH]; intros cur Hws; simpl in *; [done|].
  apply andb_prop in Hws as [-> Hws]. rewrite (IH "") by done. simpl.
  apply app_nil_r.
Qed.

(** White space at the end of a text adds no word, nor does white
    space at its start. *)
Lemma specWordsFrom_trailing (cur s ws : string) :
  Str.all Str.isSpace ws = true → specWordsFrom cur (s +:+ ws) = specWordsFrom cur s.
Proof.
  intros Hws. revert cur. induction s as [|c s IH]; intros cur; simpl.
  - by apply specWordsFrom_blank.
  - destruct (Str.isSpace c); by rewrite IH.
Qed.

Lemma specWords_leading (ws s : string) :
  Str.all Str.isSpace ws = true → specWords (ws +:+ s) = specWords s.
Proof.
  unfold specWords. induction ws as [|c ws IH]; simpl; [done|].
  intros [-> Hws]%andb_prop. simpl. by apply IH.
Qed.

Lemma specWordsFrom_nonempty (cur s : string) : cur ≠ "" → specWordsFrom cur s ≠ [].
Proof.
  revert cur. induction s as [|c s IH]; intros cur Hcur; simpl.
  - by rewrite flushWord_nonempty.
  - destruct (Str.isSpace c).
    + by rewrite flushWord_nonempty.
    + apply IH. by destruct cur.
Qed.

(** On a text that does not end in white space, [split] at white space
    reads the words: after a word ([cur] not empty) and inside a
    separator. *)
Lemma split_ws_from_words (s : string) :
  (∀ a c, s = a +:+ String c "" → Str.isSpace c = false) →
  (∀ cur, cur ≠ "" → Str.split_ws_from false cur s = specWordsFrom cur s) ∧
  (s ≠ "" → Str.split_ws_from true "" s = specWordsFrom "" s).
Proof.
  induction s as [|c s IH]; intros Hlast; simpl.
  - split; [|done]. intros cur Hcur. by rewrite flushWord_nonempty.
  - assert (∀ a x, s = a +:+ String x "" → Str.isSpace x = false) as Hlast'.
    { intros a x ->. by apply (Hlast (String c a) x). }
    destruct (IH Hlast') as [IH1 IH2].
    destruct (Str.isSpace c) eqn:Hc.
    + assert (s ≠ "") as Hs.
      { intros ->. specialize (Hlast "" c eq_refl). congruence. }
      split; [|by intros _; apply IH2].
      intros cur Hcur. rewrite flushWord_nonempty by done. simpl. f_equal. by apply IH2.
    + split.
      * intros cur Hcur. apply IH1. by destruct cur.
      * intros _. by apply IH1.
Qed.

(** [s.trim().split(/\s+/)] is the list of the words of [s], and the
    one-element list of the empty string when [s] has no word. *)
Lemma split_trim_words (s : string) :
  Str.split_ws (Str.trim s) =
  match specWords s with
  | [] => [""]
  | w :: ws => w :: ws
  end.
Proof.
  unfold Str.trim.
  destruct (trimStart_spec s) as (ws1 & Hs1 & Hws1 & Hhead).
  destruct (trimEnd_spec (Str.trimStart s)) as (ws2 & Hs2 & Hws2 & Hlast).
  assert (specWords s = specWords (Str.trimEnd (Str.trimStart s))) as ->.
  { rewrite Hs1 at 1. rewrite specWords_leading by done.
    rewrite Hs2 at 1. by apply specWordsFrom_trailing. }
  destruct (Str.trimEnd (Str.trimStart s)) as [|c t] eqn:Ht; [done|].
  assert (Str.isSpace c = false) as Hc.
  { apply (Hhead c (t +:+ ws2)). by rewrite Hs2. }
  unfold Str.split_ws, specWords. simpl. rewrite Hc.
  assert (∀ a x, t = a +:+ String x "" → Str.isSpace x = false) as Hlast'.
  { intros a x ->. by apply (Hlast (String c a) x). }
  destruct (split_ws_from_words t Hlast') as [H1 _]. rewrite H1 by done.
  pose proof (specWordsFrom_nonempty (String c "") t) as Hne.
  destruct (specWordsFrom (String c "") t); [by destruct Hne | done].
Qed.

End SplitFacts.

Section RegexFacts.

(** Soundness: a result of the matcher comes from the continuation,
    after a text that the regular expression matches. *)
Lemma m_sound {R} (r : regex) (s : string) (c : Captures) (k : Cont R) (x : R) :
  m r s c k = Some x →
  ∃ a b c', s = a +:+ b ∧ matches r a c c' ∧ k a b c' = Some x.
Proof.
  revert s c k. induction r as [l|cls|r1 IH1 r2 IH2|r1 IH1 r2 IH2|n r IH];
    intros s c k; simpl.
  - destruct (strip l s) as [s'|] eqn:Hs; [|done].
    apply strip_Some in Hs as ->. intros Hk. by exists l, s', c.
  - intros Hp. destruct (plus_sound _ _ _ _ Hp) as (a & b & -> & Hne & Ha & Hk).
    by exists a, b, c.
  - destruct (m r1 s c k) as [y|] eqn:H1.
    + intros [= ->]. destruct (IH1 _ _ _ H1) as (a & b & c' & -> & Hm & Hk).
      exists a, b, c'. auto.
    + intros H2. destruct (IH2 _ _ _ H2) as (a & b & c' & -> & Hm & Hk).
      exists a, b, c'. auto.
  - intros H1. destruct (IH1 _ _ _ H1) as (a1 & b1 & c1 & -> & Hm1 & H2).
    destruct (IH2 _ _ _ H2) as (a2 & b2 & c2 & -> & Hm2 & Hk).
    exists (a1 +:+ a2), b2, c2. rewrite append_assoc. split; [done|]. split; [|done].
    by exists a1, a2, c1.
  - intros H1. destruct (IH _ _ _ H1) as (a & b & c' & -> & Hm & Hk).
    exists a, b, (setCapture n a c'). split; [done|]. split; [|done]. by exists c'.
Qed.

(** Completeness: where the regular expression matches a prefix and
    the continuation accepts what follows, the matcher succeeds. *)
Lemma m_complete {R} (r : regex) (a b : string) (c c' : Captures) (k : Cont R) :
  matches r a c c' → is_Some (k a b c') → is_Some (m r (a +:+ b) c k).
Proof.
  revert a b c c' k. induction r as [l|cls|r1 IH1 r2 IH2|r1 IH1 r2 IH2|n r IH];
    intros a b c c' k; simpl.
  - intros [-> ->] Hk. by rewrite strip_app.
  - intros (Hne & Ha & ->) Hk. by apply plus_complete.
  - intros [Hm|Hm] Hk.
    + destruct (IH1 _ _ _ _ _ Hm Hk) as [x ->]. done.
    + destruct (m r1 (a +:+ b) c k); [done|]. by apply (IH2 _ _ _ c').
  - intros (a1 & a2 & c1 & -> & Hm1 & Hm2) Hk. rewrite append_assoc.
    apply (IH1 _ _ _ c1); [done|]. by apply (IH2 _ _ _ c').
  - intros (c1 & Hm & ->) Hk. by apply (IH _ _ _ c1).
Qed.

(** With a continuation that never fails, the match ends where a
    trailing greedy class stops accepting. *)
Lemma m_total {R} (r : regex) (s : string) (c : Captures) (k : Cont R) (x : R) :
  (∀ a b c', is_Some (k a b c')) →
  m r s c k = Some x →
  ∃ a b c', s = a +:+ b ∧ matches r a c c' ∧ k a b c' = Some x ∧
    ∀ ch t, b = String ch t → tailAccepts r ch = false.
Proof.
  revert s c k. induction r as [l|cls|r1 IH1 r2 IH2|r1 IH1 r2 IH2|n r IH];
    intros s c k Htot; simpl.
  - destruct (strip l s) as [s'|] eqn:Hs; [|done].
    apply strip_Some in Hs as ->. intros Hk. by exists l, s', c.
  - intros Hp.
    destruct (plus_total cls (λ a s', k a s' c) _ _ (λ a b, Htot a b c) Hp)
      as (a & b & -> & Hne & Ha & Hk & Hb).
    by exists a, b, c.
  - destruct (m r1 s c k) as [y|] eqn:H1.
    + intros [= ->]. destruct (IH1 _ _ _ Htot H1) as (a & b & c' & -> & Hm & Hk & Hb).
      exists a, b, c'. repeat split; auto.
      intros ch t Ht. by rewrite (Hb ch t Ht).
    + intros H2. destruct (IH2 _ _ _ Htot H2) as (a & b & c' & -> & Hm & Hk & Hb).
      exists a, b, c'. repeat split; auto.
      intros ch t Ht. by rewrite (Hb ch t Ht), andb_false_r.
  - intros H1. destruct (m_sound _ _ _ _ _ H1) as (a1 & b1 & c1 & -> & Hm1 & H2).
    destruct (IH2 _ _ (λ a2 s2 c2, k (a1 +:+ a2) s2 c2) (λ a b c', Htot _ b c') H2)
      as (a2 & b2 & c2 & -> & Hm2 & Hk & Hb).
    exists (a1 +:+ a2), b2, c2. rewrite append_assoc. repeat split; try done.
    by exists a1, a2, c1.
  - intros H1.
    destruct (IH _ _ (λ a s' c0, k a s' (setCapture n a c0)) (λ a b c', Htot a b _) H1)
      as (a & b & c' & -> & Hm & Hk & Hb).
    exists a, b, (setCapture n a c'). repeat split; try done. by exists c'.
Qed.

Lemma matches_nonempty (r : regex) (a : string) (c c' : Captures) :
  nonempty r = true → matches r a c c' → a ≠ "".
Proof.
  revert a c c'. induction r as [l|cls|r1 IH1 r2 IH2|r1 IH1 r2 IH2|n r IH];
    intros a c c'; simpl.
  - intros Hl [-> _] ->. done.
  - by intros _ (Hne & _).
  - intros [H1 H2]%andb_prop [Hm|Hm]; eauto.
  - intros Hor (a1 & a2 & c1 & -> & Hm1 & Hm2) Heq.
    apply append_eq_nil in Heq as [-> ->].
    apply orb_prop in Hor as [H1|H2]; [by eapply IH1 | by eapply IH2].
  - intros Hr (c1 & Hm & _). eauto.
Qed.

Lemma matches_rejects (ch : ascii) (r : regex) (a : string) (c c' : Captures) :
  rejects ch r = true → matches r a c c' →
  Str.all (λ x, negb (Ascii.eqb x ch)) a = true.
Proof.
  revert a c c'. induction r as [l|cls|r1 IH1 r2 IH2|r1 IH1 r2 IH2|n r IH];
    intros a c c'; simpl.
  - by intros Hl [-> _].
  - intros Hcls (_ & Ha & _). apply negb_true_iff in Hcls.
    induction a as [|x a IHa]; simpl in *; [done|].
    apply andb_prop in Ha as [Hx Ha]. rewrite IHa by done.
    destruct (Ascii.eqb_spec x ch) as [->|]; [congruence | done].
  - intros [H1 H2]%andb_prop [Hm|Hm]; eauto.
  - intros [H1 H2]%andb_prop (a1 & a2 & c1 & -> & Hm1 & Hm2).
    rewrite all_append. erewrite IH1, IH2; eauto.
  - intros Hr (c1 & Hm & _). eauto.
Qed.

(** Locality: a regular expression that rejects [ch] does not look
    past an occurrence of [ch] in its input. *)
Lemma strip_local (ch : ascii) (l s t : string) :
  Str.all (λ x, negb (Ascii.eqb x ch)) l = true →
  strip l (s +:+ String ch t) = (λ s', s' +:+ String ch t) <$> strip l s.
Proof.
  revert s. induction l as [|a l IH]; intros s Hl; simpl in *; [done|].
  apply andb_prop in Hl as [Ha Hl].
  destruct s as [|b s]; simpl.
  - apply negb_true_iff in Ha. by rewrite Ha.
  - destruct (Ascii.eqb a b); [by apply IH | done].
Qed.

Lemma star_local {R R'} (f : R' → R) (ch : ascii) (t : string) (cls : ascii → bool)
    (k : string → string → option R) (k' : string → string → option R')
    (acc s : string) :
  cls ch = false →
  (∀ a b, k a (b +:+ String ch t) = f <$> k' a b) →
  star cls acc (s +:+ String ch t) k = f <$> star cls acc s k'.
Proof.
  intros Hch Hk. revert acc. induction s as [|c s IH]; intros acc; simpl.
  - rewrite Hch. apply (Hk acc "").
  - destruct (cls c); [|apply (Hk acc (String c s))].
    rewrite IH. destruct (star cls _ s k'); simpl; [done|]. apply (Hk acc (String c s)).
Qed.

Lemma m_local {R R'} (f : R' → R) (ch : ascii) (t : string) (r : regex)
    (s : string) (c : Captures) (k : Cont R) (k' : Cont R') :
  rejects ch r = true →
  (∀ a b c', k a (b +:+ String ch t) c' = f <$> k' a b c') →
  m r (s +:+ String ch t) c k = f <$> m r s c k'.
Proof.
  revert s c k k'. induction r as [l|cls|r1 IH1 r2 IH2|r1 IH1 r2 IH2|n r IH];
    intros s c k k'; simpl; intros Hr Hk.
  - rewrite strip_local by done. destruct (strip l s); simpl; [apply Hk | done].
  - apply negb_true_iff in Hr. destruct s as [|x s]; simpl; [by rewrite Hr|].
    destruct (cls x); [|done]. by apply star_local.
  - apply andb_prop in Hr as [H1 H2].
    rewrite (IH1 _ _ _ k') by done. destruct (m r1 s c k'); simpl; [done|].
    by apply IH2.
  - apply andb_prop in Hr as [H1 H2]. apply IH1; [done|].
    intros a b c'. by apply IH2.
  - apply IH; [done|]. intros a b c'. apply Hk.
Qed.

Lemma matchAt_local (ch : ascii) (t : string) (r : regex) (s : string) :
  rejects ch r = true →
  matchAt r (s +:+ String ch t) = extend (String ch t) <$> matchAt r s.
Proof. intros Hr. unfold matchAt. by apply m_local. Qed.

Lemma exec_local (ch : ascii) (t : string) (r : regex) (s : string) :
  rejects ch r = true →
  exec r (s +:+ String ch t) =
    match exec r s with
    | Some x => Some (extend (String ch t) x)
    | None => exec r t
    end.
Proof.
  intros Hr. induction s as [|c s IH].
  - pose proof (matchAt_local ch t r "" Hr) as Hm. simpl in *. rewrite Hm.
    by destruct (matchAt r "").
  - pose proof (matchAt_local ch t r (String c s) Hr) as Hm. simpl in *. rewrite Hm.
    by destruct (matchAt r (String c s)).
Qed.

(** [exec] returns the first position at which a match attempt
    succeeds. *)
Lemma exec_Some (r : regex) (s : string) (x : Match) :
  exec r s = Some x →
  ∃ pre s1, s = pre +:+ s1 ∧ matchAt r s1 = Some x ∧
    ∀ p1 p2, pre = p1 +:+ p2 → p2 ≠ "" → matchAt r (p2 +:+ s1) = None.
Proof.
  induction s as [|c s IH]; simpl.
  - destruct (matchAt r "") eqn:Hm; [|done]. intros [= ->].
    exists "", "". repeat split; try done.
    intros p1 p2 Heq Hne. symmetry in Heq. by apply append_eq_nil in Heq as [_ ->].
  - destruct (matchAt r (String c s)) eqn:Hm.
    + intros [= ->]. exists "", (String c s). repeat split; try done.
      intros p1 p2 Heq Hne. symmetry in Heq. by apply append_eq_nil in Heq as [_ ->].
    + intros He. destruct (IH He) as (pre & s1 & -> & Hm1 & Hfirst).
      exists (String c pre), s1. repeat split; try done.
      intros p1 p2 Heq Hne. destruct p1 as [|c1 p1]; simpl in *.
      * by subst p2.
      * injection Heq as <- Heq. by apply (Hfirst p1).
Qed.

Lemma exec_first (r : regex) (s : string) (x : Match) :
  matchAt r s = Some x → exec r s = Some x.
Proof. destruct s; simpl; by intros ->. Qed.

Lemma exec_None (r : regex) (pre s : string) :
  exec r (pre +:+ s) = None → matchAt r s = None.
Proof.
  induction pre as [|c pre IH]; simpl.
  - destruct s; simpl; by destruct (matchAt r _).
  - destruct (matchAt r (String c (pre +:+ s))); [done | apply IH].
Qed.

Lemma matchAt_Some (r : regex) (s : string) (x : Match) :
  matchAt r s = Some x →
  ∃ a c', s = a +:+ rest x ∧ matches r a noCaptures c' ∧
    groups x = Some a :: map c' (seq 1 (maxGroup r)) ∧
    ∀ ch t, rest x = String ch t → tailAccepts r ch = false.
Proof.
  intros Hm. unfold matchAt in Hm.
  destruct (m_total r s noCaptures (accept r) x) as (a & b & c' & -> & Hma & Hk & Hb);
    [by eexists | done |].
  injection Hk as <-. by exists a, c'.
Qed.

Lemma matchAt_complete (r : regex) (a b : string) (c' : Captures) :
  matches r a noCaptures c' → is_Some (matchAt r (a +:+ b)).
Proof. intros Hm. apply (m_complete r a b noCaptures c'); [done | by eexists]. Qed.

(** Every match of a regular expression that matches no empty text
    moves [lastIndex] forward. *)
Lemma exec_progress (r : regex) (s : string) (x : Match) :
  nonempty r = true → exec r s = Some x →
  (String.length (rest x) < String.length s)%nat.
Proof.
  intros Hne He. destruct (exec_Some _ _ _ He) as (pre & s1 & -> & Hm & _).
  destruct (matchAt_Some _ _ _ Hm) as (a & c' & -> & Hma & _).
  apply matches_nonempty in Hma; [|done].
  rewrite !append_length. destruct a; [done|]. simpl. lia.
Qed.

(** More fuel than the input is long never changes the outcome. *)
Lemma execAllFuel_enough (r : regex) (fuel fuel' : nat) (s : string) :
  nonempty r = true →
  (String.length s < fuel)%nat → (String.length s < fuel')%nat →
  execAllFuel fuel r s = execAllFuel fuel' r s.
Proof.
  intros Hne. revert fuel' s. induction fuel as [|fuel IH]; intros fuel' s Hf Hf'; [lia|].
  destruct fuel' as [|fuel']; [lia|]. simpl.
  destruct (exec r s) as [x|] eqn:He; [|done].
  pose proof (exec_progress _ _ _ Hne He). f_equal. apply IH; lia.
Qed.

Lemma execAll_unfold (r : regex) (s : string) :
  nonempty r = true →
  execAll r s =
    match exec r s with
    | Some x => x :: execAll r (rest x)
    | None => []
    end.
Proof.
  intros Hne. unfold execAll at 1. cbn [execAllFuel].
  destruct (exec r s) as [x|] eqn:He; [|done].
  pose proof (exec_progress _ _ _ Hne He). f_equal.
  unfold execAll. apply execAllFuel_enough; [done|lia..].
Qed.

(** The matches of a text are those of its part before an occurrence
    of a rejected character followed by those of the part behind it. *)
Lemma execAll_local (ch : ascii) (r : regex) (s t : string) :
  rejects ch r = true → nonempty r = true →
  groups <$> execAll r (s +:+ String ch t) =
    (groups <$> execAll r s) ++ (groups <$> execAll r t).
Proof.
  intros Hr Hne. remember (String.length s) as n eqn:Hn.
  revert s Hn. induction (lt_wf n) as [n _ IH]; intros s ->.
  rewrite (execAll_unfold r (s +:+ _)), (execAll_unfold r s) by done.
  rewrite (exec_local ch t r s) by done. destruct (exec r s) as [x|] eqn:He.
  - simpl. f_equal. apply (IH (String.length (rest x))); [|done].
    by apply (exec_progress r).
  - simpl. by rewrite <- execAll_unfold.
Qed.

End RegexFacts.

(** ** The error-line pattern *)

Section ErrMsgRegexFacts.

Lemma all_digit_notNewline (s : string) :
  Str.all Str.isDigit s = true → Str.all notNewline s = true.
Proof.
  induction s as [|c s IH]; simpl; [done|]. intros [Hc Hs]%andb_prop.
  rewrite IH by done. rewrite andb_true_r.
  unfold Str.isDigit in Hc. apply andb_prop in Hc as [H1%N.leb_le H2%N.leb_le].
  unfold notNewline. apply negb_true_iff, orb_false_iff.
  split; apply Ascii.eqb_neq; intros ->; simpl in *; lia.
Qed.

Lemma errMsgRegex_nonempty : nonempty errMsgRegex = true.
Proof. reflexivity. Qed.

Lemma errMsgRegex_rejects (nl : ascii) :
  notNewline nl = false → rejects nl errMsgRegex = true.
Proof.
  unfold notNewline. intros Hnl. apply negb_false_iff, orb_prop in Hnl.
  destruct Hnl as [->%Ascii.eqb_eq | ->%Ascii.eqb_eq]; reflexivity.
Qed.

Lemma errMsgRegex_tail (ch : ascii) : tailAccepts errMsgRegex ch = notNewline ch.
Proof. reflexivity. Qed.

(** What the pattern matches is a well-formed error line, and the
    captures are its fields. *)
Lemma matches_errMsgRegex_inv (a : string) (c' : Captures) :
  matches errMsgRegex a noCaptures c' →
  ∃ f, wellFormed f ∧ a = render f ∧ Some a :: map c' (seq 1 5) = arrayOf f.
Proof.
  unfold errMsgRegex. simpl. intros Hm. break.
  - rewrite !append_assoc. simpl. eexists (Build_Fields _ _ _ "error" _).
    unfold wellFormed, render, arrayOf. simpl.
    split; [|split]; cycle 1; [reflexivity..|]. simpl. auto 10.
  - rewrite !append_assoc. simpl. eexists (Build_Fields _ _ _ "warning" _).
    unfold wellFormed, render, arrayOf. simpl.
    split; [|split]; cycle 1; [reflexivity..|]. simpl. auto 10.
Qed.

Lemma errMsgRegex_split :
  errMsgRegex = Seq (Seq (Group 1 (Plus notNewline)) (Lit ":")) errTail.
Proof. reflexivity. Qed.

Lemma render_split (f : Fields) : render f = f_path f +:+ ":" +:+ renderTail f.
Proof. reflexivity. Qed.

Lemma matches_errTail_intro (f : Fields) (c : Captures) :
  wellFormed f → ∃ c', matches errTail (renderTail f) c c'.
Proof.
  intros ((Hp1 & Hp2) & (Hl1 & Hl2) & (Hc1 & Hc2) & Hk & (Hm1 & Hm2)).
  eexists. unfold errTail, renderTail. simpl.
  exists (f_line f +:+ ":" +:+ f_col f +:+ ":"), (" " +:+ f_kind f +:+ ": " +:+ f_msg f).
  eexists. split; [by rewrite !append_assoc|]. split.
  { exists (f_line f), (":" +:+ f_col f +:+ ":"). eexists. split; [done|]. split.
    { eexists. eauto. }
    exists ":", (f_col f +:+ ":"). eexists. split; [done|]. split; [done|].
    exists (f_col f), ":". eexists. split; [done|]. split; [|done]. eexists. eauto. }
  exists (" " +:+ f_kind f +:+ ":"), (" " +:+ f_msg f).
  eexists. split; [by rewrite !append_assoc|]. split.
  { exists " ", (f_kind f +:+ ":"). eexists. split; [done|]. split; [done|].
    exists (f_kind f), ":". eexists. split; [done|]. split; [|done].
    eexists. split; [|done]. destruct Hk as [-> | ->]; auto. }
  exists " ", (f_msg f). eexists. split; [done|]. split; [done|].
  eexists. eauto.
Qed.

(** The groups behind the path leave capture 1 alone. *)
Lemma matches_errTail_capture (a : string) (c c' : Captures) :
  matches errTail a c c' → c' 1%nat = c 1%nat.
Proof. unfold errTail. simpl. intros Hm. break; reflexivity. Qed.

Lemma matches_errMsgRegex_intro (f : Fields) :
  wellFormed f → ∃ c', matches errMsgRegex (render f) noCaptures c'.
Proof.
  intros Hf.
  destruct (matches_errTail_intro f (setCapture 1 (f_path f) noCaptures) Hf) as [c' Ht].
  exists c'. rewrite errMsgRegex_split, render_split.
  exists (f_path f +:+ ":"), (renderTail f), (setCapture 1 (f_path f) noCaptures).
  split; [by rewrite append_assoc|]. split; [|done].
  exists (f_path f), ":". eexists. split; [done|]. split; [|done].
  eexists. split; [|done]. destruct Hf as ((Hp1 & Hp2) & _). done.
Qed.

(** A successful attempt reads a well-formed error line, up to the end
    of the line. *)
Lemma matchAt_errMsgRegex (s : string) (x : Match) :
  matchAt errMsgRegex s = Some x →
  ∃ f, wellFormed f ∧ s = render f +:+ rest x ∧ groups x = arrayOf f ∧ lineEnd (rest x).
Proof.
  intros Hm. destruct (matchAt_Some _ _ _ Hm) as (a & c' & Hs & Hma & Hg & Ht).
  destruct (matches_errMsgRegex_inv _ _ Hma) as (f & Hf & -> & Harr).
  exists f. split; [done|]. split; [done|]. split; [rewrite Hg; exact Harr|].
  destruct (rest x) as [|ch t] eqn:Hr; [by left|].
  right. exists ch, t. split; [done|]. rewrite <- errMsgRegex_tail. by eapply Ht.
Qed.

Lemma matchAt_errMsgRegex_complete (f : Fields) (b : string) :
  wellFormed f → is_Some (matchAt errMsgRegex (render f +:+ b)).
Proof.
  intros Hf. destruct (matches_errMsgRegex_intro f Hf) as [c' Hm].
  by eapply matchAt_complete.
Qed.

(** A line that holds an error line is one itself: what stands before
    belongs to the path, what stands behind to the message. *)
Lemma line_reading (a b : string) (f : Fields) :
  wellFormed f → Str.all notNewline a = true → Str.all notNewline b = true →
  ∃ f', wellFormed f' ∧ render f' = a +:+ render f +:+ b.
Proof.
  intros ((Hp1 & Hp2) & Hl & Hc & Hk & (Hm1 & Hm2)) Ha Hb.
  exists {| f_path := a +:+ f_path f; f_line := f_line f; f_col := f_col f;
            f_kind := f_kind f; f_msg := f_msg f +:+ b |}.
  split.
  - unfold wellFormed. simpl. rewrite !all_append, Ha, Hb, Hp2, Hm2.
    split; [split; [|done]|].
    { intros Heq. apply append_eq_nil in Heq as [_ ?]. congruence. }
    split; [done|]. split; [done|]. split; [done|]. split; [|done].
    intros Heq. apply append_eq_nil in Heq as [? _]. congruence.
  - unfold render. cbn [f_path f_line f_col f_kind f_msg]. by rewrite !append_assoc.
Qed.

Lemma render_notNewline (f : Fields) :
  wellFormed f → Str.all notNewline (render f) = true.
Proof.
  intros ((Hp1 & Hp2) & (Hl1 & Hl2) & (Hc1 & Hc2) & Hk & (Hm1 & Hm2)).
  unfold render. rewrite !all_append, Hp2, Hm2.
  rewrite (all_digit_notNewline _ Hl2), (all_digit_notNewline _ Hc2).
  by destruct Hk as [-> | ->].
Qed.

(** Greed of a leading capture group: the text it takes is the
    longest for which the rest of the expression still matches. *)
Lemma m_group_plus_longest {R} (n : nat) (cls : ascii → bool) (r' : regex)
    (s : string) (c : Captures) (k : Cont R) (x : R) :
  let K a b := m r' b (setCapture n a c) (λ a2 s2 c2, k (a +:+ a2) s2 c2) in
  m (Seq (Group n (Plus cls)) r') s c k = Some x →
  ∃ a b, s = a +:+ b ∧ a ≠ "" ∧ Str.all cls a = true ∧ K a b = Some x ∧
    ∀ a' b', s = a' +:+ b' → a' ≠ "" → Str.all cls a' = true →
      is_Some (K a' b') → (String.length a' ≤ String.length a)%nat.
Proof. intros K Hm. apply (plus_longest cls K s x Hm). Qed.

(** The path group of a match is at least as long as the path of any
    reading of the same text as an error line. *)
Lemma matchAt_errMsgRegex_longest (s : string) (x : Match) (f : Fields) (b : string) :
  matchAt errMsgRegex s = Some x → wellFormed f → s = render f +:+ b →
  (String.length (f_path f) ≤ String.length (group 1 (groups x)))%nat.
Proof.
  intros Hm Hf Hs. unfold matchAt in Hm. rewrite errMsgRegex_split in Hm.
  change (m (Seq (Seq ?A ?B) ?C) ?s ?c ?k)
    with (m (Seq A B) s c (λ a1 s1 c1, m C s1 c1 (λ a2 s2 c2, k (a1 +:+ a2) s2 c2))) in Hm.
  apply m_group_plus_longest in Hm as (a0 & b0 & Hs0 & Hne & Ha0 & HK & Hmax).
  assert (group 1 (groups x) = a0) as ->.
  { apply m_sound in HK as (a1 & b1 & c1 & -> & [-> ->] & HK).
    apply m_sound in HK as (a2 & b2 & c2 & -> & Ht & HK).
    apply matches_errTail_capture in Ht. injection HK as <-.
    unfold group. simpl. by rewrite Ht. }
  apply (Hmax (f_path f) (":" +:+ renderTail f +:+ b)).
  - rewrite Hs, render_split. by rewrite !append_assoc.
  - by destruct Hf as ((? & ?) & _).
  - by destruct Hf as ((? & ?) & _).
  - apply (m_complete (Lit ":") ":" _ _ (setCapture 1 (f_path f) noCaptures)); [done|].
    destruct (matches_errTail_intro f (setCapture 1 (f_path f) noCaptures) Hf) as [c' Ht].
    apply (m_complete errTail _ _ _ c'); [done | by eexists].
Qed.

(** [exec] on text that begins with an error line and ends the line
    behind it: the match is the reading with the longest path, and
    [lastIndex] moves to the end of the line. *)
Lemma exec_line (f : Fields) (post : string) :
  wellFormed f → lineEnd post →
  ∃ g, wellFormed g ∧ render g = render f ∧
    (∀ f', wellFormed f' → render f' = render f →
       (String.length (f_path f') ≤ String.length (f_path g))%nat) ∧
    exec errMsgRegex (render f +:+ post) = Some {| groups := arrayOf g; rest := post |}.
Proof.
  intros Hf Hpost.
  destruct (matchAt_errMsgRegex_complete f post Hf) as [x Hx].
  destruct (matchAt_errMsgRegex _ _ Hx) as (g & Hg & Hs & Hgr & Hrest).
  assert (render f = render g ∧ post = rest x) as [Hfg Hpx].
  { apply (split_at_first notNewline); auto using render_notNewline.
    - intros c t ->. destruct Hpost as [?|(nl & t' & [= <- <-] & ?)]; done.
    - intros c t Hr. rewrite Hr in Hrest.
      destruct Hrest as [?|(nl & t' & [= <- <-] & ?)]; done. }
  exists g. split; [done|]. split; [done|]. split.
  - intros f' Hf' Hr.
    pose proof (matchAt_errMsgRegex_longest _ _ f' post Hx Hf') as Hlen.
    rewrite Hgr in Hlen. apply Hlen. by rewrite Hr.
  - assert (exec errMsgRegex (render f +:+ post) = Some x) as ->.
    { by apply exec_first. }
    f_equal. destruct x; simpl in *. by subst.
Qed.

(** Every match [exec] ever returns came from a successful attempt. *)
Lemma execAll_elem (r : regex) (s : string) (x : Match) :
  nonempty r = true → x ∈ execAll r s → ∃ s', matchAt r s' = Some x.
Proof.
  intros Hne. remember (String.length s) as n eqn:Hn.
  revert s Hn. induction (lt_wf n) as [n _ IH]; intros s ->.
  rewrite execAll_unfold by done. destruct (exec r s) as [y|] eqn:He.
  - intros [->|Hin]%elem_of_cons.
    + destruct (exec_Some _ _ _ He) as (pre & s1 & _ & Hm & _). by exists s1.
    + apply (IH (String.length (rest y)) (exec_progress r s y Hne He) (rest y)); done.
  - by intros ?%elem_of_nil.
Qed.

(** A text without an error line has no match. *)
Lemma exec_noMatch (output : string) :
  noMatch output → exec errMsgRegex output = None.
Proof.
  intros Hno. destruct (exec errMsgRegex output) as [x|] eqn:He; [|done].
  destruct (exec_Some _ _ _ He) as (pre & s1 & -> & Hm & _).
  destruct (matchAt_errMsgRegex _ _ Hm) as (f & Hf & -> & _).
  by destruct (Hno pre f (rest x) Hf).
Qed.

Lemma execAll_noMatch (output : string) :
  noMatch output → execAll errMsgRegex output = [].
Proof.
  intros Hno. rewrite execAll_unfold by done. by rewrite exec_noMatch.
Qed.

Lemma execAll_lineStart (pre s : string) :
  lineStart pre →
  ∃ before, groups <$> execAll errMsgRegex (pre +:+ s) =
            before ++ (groups <$> execAll errMsgRegex s).
Proof.
  intros [->|(p & nl & -> & Hnl)].
  - by exists [].
  - exists (groups <$> execAll errMsgRegex p). rewrite append_assoc. simpl.
    apply execAll_local; [by apply errMsgRegex_rejects | done].
Qed.

(** The matches of a chunk with an error line in it: those before the
    line, the line's, those behind it. *)
Lemma execAll_line (pre post : string) (f : Fields) :
  wellFormed f → lineStart pre → lineEnd post →
  ∃ g before after, wellFormed g ∧ render g = render f ∧
    (∀ f', wellFormed f' → render f' = render f →
       (String.length (f_path f') ≤ String.length (f_path g))%nat) ∧
    groups <$> execAll errMsgRegex (pre +:+ render f +:+ post) =
      before ++ arrayOf g :: after.
Proof.
  intros Hf Hpre Hpost.
  destruct (exec_line f post Hf Hpost) as (g & Hg & Hr & Hlong & He).
  destruct (execAll_lineStart pre (render f +:+ post) Hpre) as [before Hb].
  exists g, before, (groups <$> execAll errMsgRegex post).
  split; [done|]. split; [done|]. split; [done|].
  rewrite Hb. f_equal. rewrite execAll_unfold by done. by rewrite He.
Qed.

(** *** Lines with one reading *)

Lemma colons_append (a b : string) : colons (a +:+ b) = (colons a + colons b)%nat.
Proof. induction a as [|c a IH]; simpl; [done|]. rewrite IH. lia. Qed.

Lemma colons_digits (s : string) : Str.all Str.isDigit s = true → colons s = 0%nat.
Proof.
  induction s as [|c s IH]; simpl; [done|]. intros [Hc Hs]%andb_prop.
  rewrite IH by done. destruct (Ascii.eqb_spec c ":") as [->|]; [done|done].
Qed.

Lemma colons_none (s : string) :
  Str.all (λ c, negb (Ascii.eqb c ":")) s = true → colons s = 0%nat.
Proof.
  induction s as [|c s IH]; simpl; [done|]. intros [Hc Hs]%andb_prop.
  rewrite IH by done. apply negb_true_iff in Hc. by rewrite Hc.
Qed.

Lemma colons_renderTail (f : Fields) :
  wellFormed f → colons (renderTail f) = (3 + colons (f_msg f))%nat.
Proof.
  intros (_ & (_ & Hl) & (_ & Hc) & Hk & _). unfold renderTail.
  rewrite !colons_append, (colons_digits _ Hl), (colons_digits _ Hc).
  destruct Hk as [-> | ->]; simpl; lia.
Qed.

(** Behind the path, a line has one reading only. *)
Lemma renderTail_inj (f g : Fields) :
  wellFormed f → wellFormed g → renderTail g = renderTail f →
  f_line g = f_line f ∧ f_col g = f_col f ∧ f_kind g = f_kind f ∧ f_msg g = f_msg f.
Proof.
  intros (_ & (_ & Hlf) & (_ & Hcf) & Hkf & _) (_ & (_ & Hlg) & (_ & Hcg) & Hkg & _).
  unfold renderTail. intros Heq.
  apply (split_at_first Str.isDigit) in Heq as [Hl Heq]; try done;
    [|by intros c t [= <- _]..].
  simpl in Heq. injection Heq as Heq.
  apply (split_at_first Str.isDigit) in Heq as [Hc Heq]; try done;
    [|by intros c t [= <- _]..].
  simpl in Heq. injection Heq as Heq.
  destruct Hkf as [Hkf | Hkf], Hkg as [Hkg | Hkg]; rewrite Hkf, Hkg in Heq;
    simpl in Heq; try discriminate; injection Heq as Heq; by rewrite Hkf, Hkg.
Qed.

(** A line whose message has no colon in it has one reading as an
    error line with a path at least that long. *)
Lemma reading_unique (f g : Fields) :
  wellFormed f → wellFormed g → render g = render f →
  (String.length (f_path f) ≤ String.length (f_path g))%nat →
  Str.all (λ c, negb (Ascii.eqb c ":")) (f_msg f) = true →
  g = f.
Proof.
  intros Hf Hg Heq Hlen Hmsg. rewrite !render_split in Heq.
  assert (f_path g = f_path f ∧ renderTail g = renderTail f) as [Hp Ht].
  { destruct (append_eq_append _ _ _ _ Heq) as [(e & He & Hrest) | (e & He & Hrest)].
    - (* the path of [f] extends the path of [g]: by nothing *)
      assert (e = "") as ->.
      { apply (f_equal String.length) in He. rewrite append_length in He.
        destruct e; [done | simpl in He; lia]. }
      rewrite append_nil_r in He. simpl in Hrest. by injection Hrest as ->.
    - (* the path of [g] extends the path of [f]: the extension would
         hold a colon more than the line has *)
      destruct e as [|c e].
      + rewrite append_nil_r in He. simpl in Hrest. by injection Hrest as ->.
      + simpl in Hrest. injection Hrest as _ Hrest.
        apply (f_equal colons) in Hrest.
        rewrite colons_append in Hrest.
        change (colons (String ":" ?t)) with (S (colons t)) in Hrest.
        rewrite (colons_renderTail f Hf), (colons_renderTail g Hg),
          (colons_none _ Hmsg) in Hrest.
        lia. }
  destruct (renderTail_inj f g Hf Hg Ht) as (Hl & Hc & Hk & Hm).
  destruct f, g; simpl in *; by subst.
Qed.

End ErrMsgRegexFacts.

(** ** The parser and the aggregator *)

Section ParserFacts.

Context `{Countable Uri} (env : @Env Uri).

Implicit Types (doc : @TextDocument Uri) (st : @State Uri _ _).
Implicit Types (col : gmap Uri (list Diagnostic)) (g : RegExpExecArray).

Lemma getDiagSeverity_error : getDiagSeverity "error" = Error.
Proof. reflexivity. Qed.

Lemma getDiagSeverity_warning : getDiagSeverity "warning" = Warning.
Proof. reflexivity. Qed.

Lemma getDiagSeverity_other (s : string) : s ≠ "warning" → getDiagSeverity s = Error.
Proof.
  intros Hw. unfold getDiagSeverity.
  destruct (String.eqb_spec s "error"); [done|].
  by destruct (String.eqb_spec s "warning").
Qed.

(** *** [addToDiagCol] *)

Lemma addToDiagCol_at (diag : DiagnosticInfo) col :
  diagsAt (addToDiagCol diag col) (di_uri diag) =
  diagsAt col (di_uri diag) ++ [diagnosticOf diag].
Proof. unfold diagsAt, addToDiagCol. by rewrite lookup_insert_eq. Qed.

Lemma addToDiagCol_other (diag : DiagnosticInfo) col (u : Uri) :
  u ≠ di_uri diag → diagsAt (addToDiagCol diag col) u = diagsAt col u.
Proof. intros Hu. unfold diagsAt, addToDiagCol. by rewrite lookup_insert_ne. Qed.

Lemma addToDiagCol_mono (diag : DiagnosticInfo) col (u : Uri) (d : Diagnostic) :
  d ∈ diagsAt col u → d ∈ diagsAt (addToDiagCol diag col) u.
Proof.
  intros Hd. destruct (decide (u = di_uri diag)) as [->|Hne].
  - rewrite addToDiagCol_at. apply elem_of_app. by left.
  - by rewrite addToDiagCol_other.
Qed.

Lemma foldl_addToDiagCol_mono (ds : list DiagnosticInfo) col (u : Uri) (d : Diagnostic) :
  d ∈ diagsAt col u → d ∈ diagsAt (foldl (λ c x, addToDiagCol x c) col ds) u.
Proof.
  revert col. induction ds as [|x ds IH]; intros col Hd; simpl; [done|].
  by apply IH, addToDiagCol_mono.
Qed.

Lemma foldl_addToDiagCol_elem (ds : list DiagnosticInfo) col (diag : DiagnosticInfo) :
  diag ∈ ds →
  diagnosticOf diag ∈ diagsAt (foldl (λ c x, addToDiagCol x c) col ds) (di_uri diag).
Proof.
  revert col. induction ds as [|x ds IH]; intros col; [by intros ?%elem_of_nil|].
  intros [->|Hin]%elem_of_cons; simpl.
  - apply foldl_addToDiagCol_mono. rewrite addToDiagCol_at. apply elem_of_app. right.
    by apply list_elem_of_singleton.
  - by apply IH.
Qed.

(** *** [getUri] and the loop body *)

Lemma diagOfMatch_Ok doc g (u : Uri) :
  getUri env doc (group 1 g) = Ok u →
  diagOfMatch env doc g =
    Ok {| di_uri := u;
          di_severity := getDiagSeverity (group 4 g);
          di_range := {| startLine := minus1 (Str.parseInt (group 2 g)); startCol := Num 0;
                         endLine := minus1 (Str.parseInt (group 2 g));
                         endCol := minus1 (Str.parseInt (group 3 g)) |};
          di_errMsg := group 5 g |}.
Proof. intros Hu. unfold diagOfMatch. by rewrite Hu. Qed.



Lemma diagCol_outputToChannel (msg : string) st :
  diagCol (outputToChannel msg st) = diagCol st.
Proof. unfold outputToChannel. by destruct (intellisenseOutputChannel st). Qed.


(** *** The loop *)

Lemma whileExec_fold (fuel : nat) (output from : string) doc st :
  whileExec env fuel output from doc st =
  foldl (λ st g, loopBody env output doc g st) st
    (groups <$> execAllFuel fuel errMsgRegex from).
Proof.
  revert from st. induction fuel as [|fuel IH]; intros from st; simpl; [done|].
  destruct (exec errMsgRegex from) as [x|]; simpl; [apply IH | done].
Qed.

(** The parser handles the matches of the chunk one after the other. *)
Lemma processIntellisenseErrors_fold (output : string) doc st :
  processIntellisenseErrors env output doc st =
  foldl (λ st g, loopBody env output doc g st) st
    (groups <$> execAll errMsgRegex output).
Proof. apply whileExec_fold. Qed.

(** The loop never runs out of rounds: more of them change nothing. *)
Lemma processIntellisenseErrors_fuel (fuel : nat) (output : string) doc st :
  (String.length output < fuel)%nat →
  whileExec env fuel output output doc st = processIntellisenseErrors env output doc st.
Proof.
  intros Hf. unfold processIntellisenseErrors. rewrite !whileExec_fold.
  f_equal. f_equal. apply execAllFuel_enough; [done | done | lia].
Qed.

Lemma diagCol_foldl_loopBody (output : string) doc (gs : list RegExpExecArray) st :
  diagCol (foldl (λ st g, loopBody env output doc g st) st gs) =
  foldl (λ c x, addToDiagCol x c) (diagCol st) (resolved env doc gs).
Proof.
  revert st. induction gs as [|g gs IH]; intros st; simpl; [done|].
  rewrite IH. unfold resolved, loopBody. simpl.
  destruct (diagOfMatch env doc g) as [d|msg]; simpl; [done|].
  by rewrite diagCol_outputToChannel.
Qed.


(** A chunk without an error line leaves the state as it is. *)
Lemma processIntellisenseErrors_noMatch (output : string) doc st :
  noMatch output → processIntellisenseErrors env output doc st = st.
Proof.
  intros Hno. rewrite processIntellisenseErrors_fold. by rewrite execAll_noMatch.
Qed.

Lemma resolved_app doc (gs1 gs2 : list RegExpExecArray) :
  resolved env doc (gs1 ++ gs2) = resolved env doc gs1 ++ resolved env doc gs2.
Proof. apply omap_app. Qed.

Lemma resolved_elem doc (gs : list RegExpExecArray) g (d : DiagnosticInfo) :
  g ∈ gs → diagOfMatch env doc g = Ok d → d ∈ resolved env doc gs.
Proof. intros Hg Hd. apply list_elem_of_omap. exists g. by rewrite Hd. Qed.

End ParserFacts.

(** ** The error-text parser and the location resolver *)

Section ParserClaims.

Context `{Countable Uri} (env : @Env Uri).

Implicit Types (doc : @TextDocument Uri) (st : @State Uri _ _).
Implicit Types (g : RegExpExecArray).

(** C1.  For every line of a stderr chunk that has the error-line
    format, [exec] returns a match whose groups are the fields of the
    line, read with the longest possible path, as the greedy pattern
    does; that is the reading at hand when the message has no colon in
    it.  The line and the column that [parseInt] reads are the numbers
    that the digits denote in decimal notation, as JavaScript numbers;
    the record built from the match has the 0-based line
    [parseInt line - 1] and the 0-based column [parseInt col - 1], which
    are these numbers less 1 whenever they are at most 2^53; its range
    is [(line - 1, 0, line - 1, col - 1)], its severity [Error] for the
    keyword [error] and [Warning] for [warning], its message the rest
    of the line; once its path resolves to [u], the diagnostic is
    stored under [u]. *)
Theorem error_line_record doc st (pre post : string) (f : Fields) :
  wellFormed f → lineStart pre → lineEnd post →
  ∃ g : Fields,
    wellFormed g ∧ render g = render f ∧
    (∀ f', wellFormed f' → render f' = render f →
       (String.length (f_path f') ≤ String.length (f_path g))%nat) ∧
    (Str.all (λ c, negb (Ascii.eqb c ":")) (f_msg f) = true → g = f) ∧
    arrayOf g ∈ groups <$> execAll errMsgRegex (pre +:+ render f +:+ post) ∧
    let lineNo := minus1 (Str.parseInt (f_line g)) in
    let charNo := minus1 (Str.parseInt (f_col g)) in
    (Str.parseInt (f_line g) = toNumber (decimal (f_line g)) ∧
     Str.parseInt (f_col g) = toNumber (decimal (f_col g))) ∧
    (decimal (f_line g) ≤ 2 ^ 53 → lineNo = Num (decimal (f_line g) - 1)) ∧
    (decimal (f_col g) ≤ 2 ^ 53 → charNo = Num (decimal (f_col g) - 1)) ∧
    ∀ u : Uri, getUri env doc (f_path g) = Ok u →
      let sev := if decide (f_kind g = "error") then Error else Warning in
      let r := {| startLine := lineNo; startCol := Num 0;
                  endLine := lineNo; endCol := charNo |} in
      diagOfMatch env doc (arrayOf g) =
        Ok {| di_uri := u; di_range := r; di_severity := sev; di_errMsg := f_msg g |} ∧
      {| severity := sev; range := r; message := f_msg g |}
        ∈ diagsAt (diagCol (processIntellisenseErrors env (pre +:+ render f +:+ post) doc st)) u.
Proof.
  intros Hf Hpre Hpost.
  destruct (execAll_line pre post f Hf Hpre Hpost)
    as (g & before & after & Hg & Hr & Hlong & Hall).
  exists g. split; [done|]. split; [done|]. split; [done|]. split.
  { intros Hmsg. apply reading_unique; auto. }
  split.
  { rewrite Hall. apply elem_of_app. right. apply elem_of_cons. by left. }
  intros lineNo charNo.
  assert (Str.all Str.isDigit (f_line g) = true ∧ Str.all Str.isDigit (f_col g) = true)
    as [Hline Hcol] by (by destruct Hg as (_ & (_ & ?) & (_ & ?) & _)).
  split; [split; by apply parseInt_decimal|].
  split; [intros Hle; by apply zeroBased_exact|].
  split; [intros Hle; by apply zeroBased_exact|].
  intros u Hu sev r.
  assert (getDiagSeverity (f_kind g) = sev) as Hsev.
  { destruct Hg as (_ & _ & _ & [Hk | Hk] & _); subst sev; by rewrite Hk. }
  assert (diagOfMatch env doc (arrayOf g) =
            Ok {| di_uri := u; di_range := r; di_severity := sev; di_errMsg := f_msg g |})
    as Hd.
  { rewrite (diagOfMatch_Ok env doc (arrayOf g) u Hu). by rewrite <- Hsev. }
  split; [done|].
  rewrite processIntellisenseErrors_fold, diagCol_foldl_loopBody, Hall.
  apply (foldl_addToDiagCol_elem _ _
           {| di_uri := u; di_range := r; di_severity := sev; di_errMsg := f_msg g |}).
  apply (resolved_elem env doc _ (arrayOf g)); [|done].
  apply elem_of_app. right. apply elem_of_cons. by left.
Qed.

(** C2.  The precedence of the location resolver: the path [-] is the
    current document, whatever the file system holds; otherwise an
    absolute path that exists is itself; otherwise the path joined to
    the document's directory, when that exists; otherwise the resolver
    throws. *)
Theorem getUri_precedence doc (gotPath : string) :
  let joined := path_join env (path_dirname env (fsPath env (uri doc))) gotPath in
  (gotPath = "-" → getUri env doc gotPath = Ok (uri doc)) ∧
  (gotPath ≠ "-" →
     path_isAbsolute env gotPath = true → fs_existsSync env gotPath = true →
     getUri env doc gotPath = Ok (Uri_file env gotPath)) ∧
  (gotPath ≠ "-" →
     path_isAbsolute env gotPath = false ∨ fs_existsSync env gotPath = false →
     fs_existsSync env joined = true →
     getUri env doc gotPath = Ok (Uri_file env joined)) ∧
  (gotPath ≠ "-" →
     path_isAbsolute env gotPath = false ∨ fs_existsSync env gotPath = false →
     fs_existsSync env joined = false →
     getUri env doc gotPath = Throw ("Error in `" +:+ gotPath +:+ "`")).
Proof.
  intros joined. unfold getUri. fold joined.
  destruct (String.eqb_spec gotPath "-") as [->|Hne].
  - repeat split; done.
  - split; [done|]. split; [|split].
    + intros _ -> ->. done.
    + intros _ [-> | ->] ->; simpl; [done|]. by rewrite andb_false_r.
    + intros _ [-> | ->] ->; simpl; [done|]. by rewrite andb_false_r.
Qed.


(** C4, as the code has it.  The fallback of the severity mapping
    sends every keyword other than [warning] to [Error], but it is
    never reached: every match of the pattern carries the keyword
    [error] or [warning], and a chunk without a text of the error-line
    format, whatever keywords its lines carry, yields no record and
    leaves the state as it is. *)
Theorem severity_fallback_unreachable doc st :
  (∀ s, s ≠ "error" → s ≠ "warning" → getDiagSeverity s = Error) ∧
  (∀ output x, x ∈ execAll errMsgRegex output →
     group 4 (groups x) = "error" ∨ group 4 (groups x) = "warning") ∧
  (∀ output, noMatch output →
     execAll errMsgRegex output = [] ∧
     processIntellisenseErrors env output doc st = st).
Proof.
  split; [|split].
  - intros s _ Hw. by apply getDiagSeverity_other.
  - intros output x Hx.
    destruct (execAll_elem _ _ _ errMsgRegex_nonempty Hx) as [s' Hm].
    destruct (matchAt_errMsgRegex _ _ Hm) as (f & Hf & _ & -> & _).
    by destruct Hf as (_ & _ & _ & Hk & _).
  - intros output Hno. split; [by apply execAll_noMatch|].
    by apply processIntellisenseErrors_noMatch.
Qed.

End ParserClaims.

(** ** The process runner, the scheduler and the event loop *)

Section RunnerFacts.

Context `{Countable Uri} (env : @Env Uri).

Implicit Types (doc : @TextDocument Uri) (st : @State Uri _ _).

(** *** [execIntellisense] *)

(** What a run does to the state: the handle it finds is signalled,
    the call of [cp.spawn] goes on record, and the handle becomes that
    of the new child, or none when the call threw; in that case the
    error is logged and written to the channel. *)
Lemma execIntellisense_spec doc st :
  let st' := execIntellisense env doc st in
  let c := spawnCall env doc (now st) in
  processes st' =
    match intellisenseProcess st with
    | Some p => processes (kill p st)
    | None => processes st
    end ++ [c] ∧
  intellisenseProcess st' = handleOf c (length (processes st)) ∧
  diagCol st' = ∅ ∧
  (timers st' = timers st ∧ timeout st' = timeout st ∧ nextTimer st' = nextTimer st ∧
   now st' = now st) ∧
  match outcome c with
  | SpawnThrows msg =>
      let errMsg := "Intellisense failed with error " +:+ msg in
      match intellisenseOutputChannel st with
      | Some lines =>
          intellisenseOutputChannel st' = Some (lines ++ [errMsg]) ∧
          logged st' = logged st ++ [(error, errMsg)]
      | None =>
          intellisenseOutputChannel st' = None ∧
          logged st' = logged st ++
            [(error, errMsg);
             (warning, "Unable to output to Intellisense OutputChannel, " +:+ errMsg)]
      end
  | _ => intellisenseOutputChannel st' = intellisenseOutputChannel st ∧ logged st' = logged st
  end.
Proof.
  unfold execIntellisense, spawn, spawnCall, handleOf, outputToChannel. simpl.
  destruct (intellisenseOutputChannel st) eqn:Hch, (intellisenseProcess st) as [p|] eqn:Hp;
    simpl; destruct (cp_spawn env (now st) _ _ _) as [| |msg]; simpl;
    repeat (progress (simpl; rewrite ?Hch, ?Hp)); rewrite ?length_alter, <- ?app_assoc;
    repeat split; reflexivity.
Qed.

Lemma diagCol_execIntellisense doc st : diagCol (execIntellisense env doc st) = ∅.
Proof. by destruct (execIntellisense_spec doc st) as (_ & _ & ? & _). Qed.

Lemma timers_execIntellisense doc st :
  timers (execIntellisense env doc st) = timers st ∧
  timeout (execIntellisense env doc st) = timeout st ∧
  nextTimer (execIntellisense env doc st) = nextTimer st ∧
  now (execIntellisense env doc st) = now st.
Proof. by destruct (execIntellisense_spec doc st) as (_ & _ & _ & ? & _). Qed.

Lemma length_processes_kill (p : nat) st :
  length (processes (kill p st)) = length (processes st).
Proof. unfold kill. simpl. apply length_alter. Qed.

Lemma invocations_kill (p : nat) st : invocations (kill p st) = invocations st.
Proof.
  unfold invocations, kill. simpl. apply list_eq. intros i.
  rewrite !list_lookup_fmap. destruct (decide (i = p)) as [->|Hne].
  - rewrite list_lookup_alter_eq. by destruct (processes st !! p).
  - by rewrite list_lookup_alter_ne.
Qed.

(** The call the run makes is the last one of the list; the handle of
    its child is stored, unless the call threw. *)
Lemma processes_execIntellisense doc st :
  let st' := execIntellisense env doc st in
  let c := spawnCall env doc (now st) in
  intellisenseProcess st' = handleOf c (length (processes st)) ∧
  processes st' !! length (processes st) = Some c ∧
  length (processes st') = S (length (processes st)) ∧
  invocations st' = invocations st ++ [doc].
Proof.
  intros st' c. destruct (execIntellisense_spec doc st) as (Hps & Hh & _).
  split; [done|]. unfold invocations, st'. rewrite Hps. fold c.
  destruct (intellisenseProcess st) as [p|].
  - rewrite lookup_app_r by (rewrite length_processes_kill; lia).
    rewrite length_app, length_processes_kill, Nat.sub_diag. simpl.
    split; [done|]. split; [lia|]. rewrite fmap_app. f_equal. apply (invocations_kill p st).
  - rewrite lookup_app_r by lia. rewrite length_app, Nat.sub_diag. simpl.
    split; [done|]. split; [lia|]. by rewrite fmap_app.
Qed.

(** A run that finds a process handle sends that process the
    termination signal before it spawns. *)
Lemma execIntellisense_kills doc st (p : nat) (c : ChildProcess) :
  intellisenseProcess st = Some p → processes st !! p = Some c →
  killed <$> processes (execIntellisense env doc st) !! p = Some true.
Proof.
  intros Hp Hc. destruct (execIntellisense_spec doc st) as (-> & _). rewrite Hp.
  rewrite lookup_app_l by (rewrite length_processes_kill; by eapply lookup_lt_Some).
  unfold kill. simpl. by rewrite list_lookup_alter_eq, Hc.
Qed.

(** *** [triggerIntellisense] *)

Lemma triggerIntellisense_spec doc st :
  timersOk st →
  let st' := triggerIntellisense doc st in
  timers st' = [{| timerId := nextTimer st; due := (now st + 500)%nat; timerDoc := doc |}] ∧
  timeout st' = Some (nextTimer st) ∧
  now st' = now st ∧
  processes st' = processes st ∧
  diagCol st' = diagCol st.
Proof.
  unfold timersOk, triggerIntellisense, setTimeout, clearTimeout.
  intros [Ht | (t & Ht & Hto)].
  - destruct (timeout st); simpl; by rewrite Ht.
  - rewrite Hto. simpl. rewrite Ht. simpl.
    rewrite filter_cons_False by (intros Hne; by apply Hne). done.
Qed.

Lemma timersOk_triggerIntellisense doc st :
  timersOk st → timersOk (triggerIntellisense doc st).
Proof.
  intros Hok. destruct (triggerIntellisense_spec doc st Hok) as (Ht & Hto & _).
  right. eexists. by split.
Qed.

(** *** Timers *)

Lemma runTimers_none st : timers st = [] → runTimers env st = set_timers [] (nextTimer st) st.
Proof. unfold runTimers. by intros ->. Qed.

Lemma runTimers_waiting st (t : Timer) :
  timers st = [t] → (now st < due t)%nat →
  runTimers env st = set_timers [t] (nextTimer st) st.
Proof.
  unfold runTimers. intros -> Hlt. simpl.
  rewrite bool_decide_eq_false_2 by lia. done.
Qed.

Lemma runTimers_ready st (t : Timer) :
  timers st = [t] → (due t ≤ now st)%nat →
  runTimers env st = execIntellisense env (timerDoc t) (set_timers [] (nextTimer st) st).
Proof.
  unfold runTimers. intros -> Hle. simpl.
  rewrite bool_decide_eq_true_2 by lia. done.
Qed.

Lemma timersOk_runTimers st : timersOk st → timersOk (runTimers env st).
Proof.
  intros [Ht | (t & Ht & Hto)].
  - rewrite runTimers_none by done. by left.
  - destruct (decide (due t ≤ now st)%nat).
    + rewrite (runTimers_ready st t) by done. left.
      by destruct (timers_execIntellisense (timerDoc t) (set_timers [] (nextTimer st) st))
        as (-> & _).
    + rewrite (runTimers_waiting st t) by (done || lia). right. by exists t.
Qed.

Lemma timers_processIntellisenseErrors (output : string) doc st :
  timers (processIntellisenseErrors env output doc st) = timers st ∧
  timeout (processIntellisenseErrors env output doc st) = timeout st.
Proof.
  rewrite processIntellisenseErrors_fold.
  generalize (groups <$> execAll errMsgRegex output). intros gs. revert st.
  induction gs as [|g gs IH]; intros st; simpl; [done|].
  destruct (IH (loopBody env output doc g st)) as [-> ->].
  unfold loopBody, outputToChannel.
  destruct (diagOfMatch env doc g); [done|].
  by destruct (intellisenseOutputChannel st).
Qed.

(** At most one timer is pending in every state events lead to. *)
Lemma timersOk_handle (ev : Event) st st' :
  timersOk st → handle env ev st = Some st' → timersOk st'.
Proof.
  intros Hok. destruct ev as [[d|]|d|d|ms|p data|p data|p code]; simpl.
  - intros [= <-]. destruct (String.eqb _ _); [by apply timersOk_triggerIntellisense | done].
  - by intros [= <-].
  - intros [= <-]. unfold onDidChangeTextDocument.
    destruct (String.eqb _ _); [by apply timersOk_triggerIntellisense | done].
  - by intros [= <-].
  - intros [= <-]. apply timersOk_runTimers.
    unfold timersOk in *. simpl. done.
  - destruct (processes st !! p) as [c|]; [|done]. destruct (emits c) eqn:Hemits; [|done].
    by intros [= <-].
  - destruct (processes st !! p) as [c|]; [|done]. destruct (emits c) eqn:Hemits; [|done].
    intros [= <-]. unfold onStderr, timersOk.
    by destruct (timers_processIntellisenseErrors data (procDoc c) st) as [-> ->].
  - destruct (processes st !! p) as [c|]; [|done]. destruct (emits c) eqn:Hemits; [|done].
    by intros [= <-].
Qed.

Lemma timersOk_run (evs : list Event) st st' :
  timersOk st → run env evs st = Some st' → timersOk st'.
Proof.
  revert st. induction evs as [|ev evs IH]; intros st Hok; simpl.
  - by intros [= <-].
  - destruct (handle env ev st) as [st1|] eqn:Hev; [|done].
    apply IH. by eapply timersOk_handle.
Qed.

Lemma run_app (evs1 evs2 : list Event) st :
  run env (evs1 ++ evs2) st = run env evs1 st ≫= run env evs2.
Proof.
  revert st. induction evs1 as [|ev evs1 IH]; intros st; simpl; [done|].
  destruct (handle env ev st); [apply IH | done].
Qed.

Lemma timersOk_subscribe (active : option TextDocument) :
  timersOk (subscribeIntellisense env active loaded).
Proof.
  unfold subscribeIntellisense. destruct active as [d|]; [|by left].
  destruct (String.eqb _ _); [|by left].
  apply timersOk_triggerIntellisense. by left.
Qed.

Lemma timersOk_reachable st : reachable env st → timersOk st.
Proof.
  intros (active & evs & Hrun).
  eapply timersOk_run; [apply timersOk_subscribe | done].
Qed.

Lemma reachable_run (evs : list Event) st st' :
  reachable env st → run env evs st = Some st' → reachable env st'.
Proof.
  intros (active & evs0 & Hrun) Hevs. exists active, (evs0 ++ evs).
  rewrite run_app, Hrun. done.
Qed.

Lemma timersOk_length st : timersOk st → (length (timers st) ≤ 1)%nat.
Proof. intros [-> | (t & -> & _)]; simpl; lia. Qed.

End RunnerFacts.

Section RunnerClaims.

Context `{Countable Uri} (env : @Env Uri).

Implicit Types (doc d : @TextDocument Uri) (st : @State Uri _ _).

(** C3.  A run empties the diagnostic store, whatever it held, before
    anything else happens; stderr chunks without a text of the
    error-line format yield no match and add nothing, so the store is
    still empty after them. *)
Theorem run_clears_store doc st :
  diagCol (execIntellisense env doc st) = ∅ ∧
  ∀ doc' (outputs : list string), Forall noMatch outputs →
    Forall (λ o, execAll errMsgRegex o = []) outputs ∧
    diagCol (foldl (λ s o, onStderr env doc' o s) (execIntellisense env doc st) outputs) = ∅.
Proof.
  split; [apply diagCol_execIntellisense|].
  intros doc' outputs Hno. split.
  - eapply Forall_impl; [done|]. intros o. apply execAll_noMatch.
  - pose proof (diagCol_execIntellisense env doc st) as Hempty.
    revert Hempty. generalize (execIntellisense env doc st). intros s Hs.
    induction Hno as [|o outputs Ho Hno IH] in s, Hs |- *; simpl; [done|].
    apply IH. unfold onStderr. by rewrite processIntellisenseErrors_noMatch.
Qed.

(** C7.  The argument vector that a run hands to [cp.spawn], whatever
    comes of the call: the configured string, trimmed and split at white
    space, then the three fixed flags in this order.  When the call
    returns a child, that child is the one whose handle the run stores.
    The user arguments are the words of the configured string, when it
    has any. *)
Theorem spawn_arguments doc st :
  let st' := execIntellisense env doc st in
  let userArgs := Str.split_ws (Str.trim (additionalCommandLineArguments env doc)) in
  ∃ c : ChildProcess,
    processes st' !! length (processes st) = Some c ∧
    length (processes st') = S (length (processes st)) ∧
    spawnfile c = getBinPath env ∧
    spawnargs c =
      userArgs ++ ["--loglevel=WARNING"; "--define-default=backend=null"; "-"] ∧
    outcome c = cp_spawn env (now st) (spawnfile c) (spawnargs c) (cwd c) ∧
    ((∀ msg, outcome c ≠ SpawnThrows msg) →
     intellisenseProcess st' ≫= (processes st' !!.) = Some c) ∧
    (specWords (additionalCommandLineArguments env doc) ≠ [] →
     userArgs = specWords (additionalCommandLineArguments env doc)).
Proof.
  intros st' userArgs.
  destruct (processes_execIntellisense env doc st) as (Hp & Hc & Hlen & _).
  exists (spawnCall env doc (now st)). split; [exact Hc|]. split; [exact Hlen|].
  split; [done|]. split; [done|]. split; [done|]. split.
  - intros Hret. unfold st'. rewrite Hp. unfold handleOf.
    destruct (outcome (spawnCall env doc (now st))) as [| |msg] eqn:Hout;
      [exact Hc | exact Hc | by destruct (Hret msg)].
  - intros Hwords. unfold userArgs. rewrite split_trim_words.
    by destruct (specWords _).
Qed.

Lemma trim_blank (s : string) : Str.all Str.isSpace s = true → Str.trim s = "".
Proof.
  intros Hs. unfold Str.trim.
  assert (Str.trimStart s = "") as ->; [|done].
  induction s as [|c s IH]; simpl in *; [done|].
  apply andb_prop in Hs as [-> Hs]. by apply IH.
Qed.

(** C10.  An additional-arguments string that is empty or all white
    space is split into the one-element list of the empty string, so
    the compiler is given an empty first argument. *)
Theorem blank_arguments doc st :
  Str.all Str.isSpace (additionalCommandLineArguments env doc) = true →
  Str.split_ws (Str.trim (additionalCommandLineArguments env doc)) = [""] ∧
  ∃ c : ChildProcess,
    processes (execIntellisense env doc st) !! length (processes st) = Some c ∧
    spawnargs c = [""; "--loglevel=WARNING"; "--define-default=backend=null"; "-"].
Proof.
  intros Hblank. rewrite (trim_blank _ Hblank). split; [done|].
  destruct (processes_execIntellisense env doc st) as (_ & Hc & _).
  eexists. split; [exact Hc|]. simpl. by rewrite (trim_blank _ Hblank).
Qed.

(** C9.  Closing a document deletes the store's entry for the
    document's file identity and leaves every other entry as it is. *)
Theorem close_document_removes_entry doc st :
  handle env (DidCloseTextDocument doc) st = Some (onDidCloseTextDocument doc st) ∧
  diagCol (onDidCloseTextDocument doc st) !! uri doc = None ∧
  ∀ u, u ≠ uri doc → diagCol (onDidCloseTextDocument doc st) !! u = diagCol st !! u.
Proof.
  split; [done|]. unfold onDidCloseTextDocument. simpl. split.
  - apply lookup_delete_eq.
  - intros u Hu. by apply lookup_delete_ne.
Qed.

(** *** Debouncing *)

Lemma armed_trigger d st :
  timersOk st → languageId d = langId env →
  ∃ st', handle env (DidChangeTextDocument d) st = Some st' ∧
         armed (invocations st) d st'.
Proof.
  intros Hok Hlang. eexists. split; [done|].
  unfold onDidChangeTextDocument. rewrite Hlang, String.eqb_refl.
  destruct (triggerIntellisense_spec d st Hok) as (Ht & Hto & Hnow & Hp & _).
  split; [|unfold invocations; by rewrite Hp].
  eexists. split; [exact Ht|]. by rewrite Hto, Hnow.
Qed.

(** Less than the quiet interval after a trigger the timer has not
    come due: nothing runs. *)
Lemma armed_elapse (P : list (@TextDocument Uri)) d st (gap : nat) :
  armed P d st → (gap < 500)%nat →
  ∃ st', handle env (Elapse gap) st = Some st' ∧ timersOk st' ∧ invocations st' = P.
Proof.
  intros [(t & Ht & Hto & Hd & Hdue) HP] Hgap. eexists. split; [done|].
  rewrite (runTimers_waiting env _ t) by (simpl; (done || lia)).
  split; [right; by exists t | done].
Qed.

(** Once the quiet interval has passed the timer runs the process
    runner, once, for the document of the last trigger. *)
Lemma armed_fire (P : list (@TextDocument Uri)) d st (wait : nat) :
  armed P d st → (500 ≤ wait)%nat →
  ∃ st', handle env (Elapse wait) st = Some st' ∧ timers st' = [] ∧
         invocations st' = P ++ [d].
Proof.
  intros [(t & Ht & Hto & Hd & Hdue) HP] Hwait. eexists. split; [done|].
  rewrite (runTimers_ready env _ t) by (simpl; (done || lia)).
  match goal with
  | |- context [execIntellisense env ?x ?s] =>
      destruct (timers_execIntellisense env x s) as (-> & _);
      destruct (processes_execIntellisense env x s) as (_ & _ & _ & ->)
  end.
  split; [done|]. by rewrite Hd, <- HP.
Qed.

Lemma last_default {A} (l : list A) (b d d' : A) :
  List.last (b :: l) d = List.last (b :: l) d'.
Proof. revert b. induction l as [|c l IH]; intros b; [done|]. apply (IH c). Qed.

Lemma last_cons {A} (l : list A) (a d : A) : List.last (a :: l) d = List.last l a.
Proof. destruct l as [|b l]; [done|]. apply (last_default l b). Qed.

Lemma burst_more (P : list (@TextDocument Uri)) d st (more : list (nat * TextDocument)) :
  armed P d st →
  Forall (λ gd, (gd.1 < 500)%nat ∧ languageId gd.2 = langId env) more →
  ∃ st', run env (flat_map (λ gd, [Elapse gd.1; DidChangeTextDocument gd.2]) more) st
           = Some st' ∧
         armed P (lastDoc d more) st'.
Proof.
  intros Harmed Hmore. revert d st Harmed.
  induction Hmore as [|[gap d'] more [Hgap Hlang] Hmore IH]; intros d st Harmed.
  - by exists st.
  - destruct (armed_elapse P d st gap Harmed Hgap) as (st1 & Hst1 & Hok & HP).
    destruct (armed_trigger d' st1 Hok Hlang) as (st2 & Hst2 & Harmed2).
    rewrite HP in Harmed2.
    destruct (IH d' st2 Harmed2) as (st' & Hrun & Harmed').
    exists st'. split.
    + cbn [flat_map app run fst snd]. rewrite Hst1. cbn [run]. by rewrite Hst2.
    + unfold lastDoc in *. rewrite fmap_cons. simpl snd. by rewrite last_cons.
Qed.

(** C6.  A burst of triggers, each less than the 500 ms quiet interval
    after the one before: every trigger cancels the pending timer and
    arms a new one, so nothing runs during the burst; when the quiet
    interval has passed after the last trigger the process runner is
    invoked exactly once, for the document of the last trigger; and at
    no point of the trace are two timers pending. *)
Theorem debounce st d (more : list (nat * TextDocument)) (wait : nat) :
  reachable env st →
  languageId d = langId env →
  Forall (λ gd, (gd.1 < 500)%nat ∧ languageId gd.2 = langId env) more →
  (500 ≤ wait)%nat →
  ∃ st1 st2,
    run env (burst d more) st = Some st1 ∧
    invocations st1 = invocations st ∧
    (∃ t, timers st1 = [t] ∧ timerDoc t = lastDoc d more) ∧
    run env [Elapse wait] st1 = Some st2 ∧
    invocations st2 = invocations st ++ [lastDoc d more] ∧
    timers st2 = [] ∧
    ∀ evs1 evs2, burst d more ++ [Elapse wait] = evs1 ++ evs2 →
      ∃ st', run env evs1 st = Some st' ∧ (length (timers st') ≤ 1)%nat.
Proof.
  intros Hreach Hlang Hmore Hwait.
  pose proof (timersOk_reachable env st Hreach) as Hok.
  destruct (armed_trigger d st Hok Hlang) as (st0 & Hst0 & Harmed0).
  destruct (burst_more _ d st0 more Harmed0 Hmore) as (st1 & Hrun1 & Harmed1).
  destruct (armed_fire _ _ st1 wait Harmed1 Hwait) as (st2 & Hst2 & Htimers2 & Hinv2).
  assert (run env (burst d more) st = Some st1) as Hburst.
  { unfold burst. cbn [run]. by rewrite Hst0. }
  assert (run env [Elapse wait] st1 = Some st2) as Hfire.
  { cbn [run]. by rewrite Hst2. }
  exists st1, st2. split; [done|].
  split; [by destruct Harmed1 as [_ ?]|]. split.
  { destruct Harmed1 as [(t & Ht & _ & Hd & _) _]. by exists t. }
  split; [done|]. split; [done|]. split; [done|].
  intros evs1 evs2 Hsplit.
  assert (run env (evs1 ++ evs2) st = Some st2) as Hall.
  { rewrite <- Hsplit, run_app, Hburst. exact Hfire. }
  rewrite run_app in Hall. destruct (run env evs1 st) as [st'|] eqn:Hrun; [|done].
  exists st'. split; [done|]. apply timersOk_length.
  by apply (timersOk_run env evs1 st st').
Qed.

End RunnerClaims.

(** ** Concrete runs *)

Section Concrete.

(** A text has no error line in it exactly when [exec] finds no
    match. *)
Lemma noMatch_exec (output : string) :
  exec errMsgRegex output = None → noMatch output.
Proof.
  intros He pre f post Hf ->. apply exec_None in He.
  destruct (matchAt_errMsgRegex_complete f post Hf) as [x Hx]. congruence.
Qed.

(** The spec's example: line 11, column 4, [Error], "bad note". *)
Example error_line_example :
  diagCol (processIntellisenseErrors (posix ["/abs/path.ly"] "")
             (render badNote) score activated) =
  {[ "/abs/path.ly" :=
       [{| severity := Error;
           range := {| startLine := Num 11; startCol := Num 0;
                       endLine := Num 11; endCol := Num 4 |};
           message := "bad note" |}] ]}.
Proof. vm_compute. reflexivity. Qed.

Lemma wellFormed_badNote : wellFormed badNote.
Proof. unfold wellFormed. simpl. repeat split; (done || auto). Qed.

Lemma error_line_record_witness :
  wellFormed badNote ∧ lineStart "" ∧ lineEnd "" ∧
  ∃ g : Fields,
    g = badNote ∧
    Str.parseInt (f_line g) = Num 12 ∧ Str.parseInt (f_col g) = Num 5 ∧
    minus1 (Str.parseInt (f_line g)) = Num 11 ∧ minus1 (Str.parseInt (f_col g)) = Num 4 ∧
    diagOfMatch (posix ["/abs/path.ly"] "") score (arrayOf g) =
      Ok {| di_uri := "/abs/path.ly";
            di_range := {| startLine := Num 11; startCol := Num 0;
                           endLine := Num 11; endCol := Num 4 |};
            di_severity := Error; di_errMsg := "bad note" |} ∧
    {| severity := Error;
       range := {| startLine := Num 11; startCol := Num 0;
                   endLine := Num 11; endCol := Num 4 |};
       message := "bad note" |}
      ∈ diagsAt (diagCol (processIntellisenseErrors (posix ["/abs/path.ly"] "")
                            ("" +:+ render badNote +:+ "") score activated)) "/abs/path.ly".
Proof.
  split; [exact wellFormed_badNote|]. split; [by left|]. split; [by left|].
  destruct (error_line_record (posix ["/abs/path.ly"] "") score activated "" "" badNote
              wellFormed_badNote (or_introl eq_refl) (or_introl eq_refl))
    as (g & _ & _ & _ & Hone & _ & [Hline Hcol] & Hline0 & Hcol0 & Hrec).
  exists g. assert (g = badNote) as Hg by (apply Hone; reflexivity).
  split; [exact Hg|]. rewrite Hg in *.
  split; [exact Hline|]. split; [exact Hcol|].
  split; [apply Hline0; vm_compute; discriminate|].
  split; [apply Hcol0; vm_compute; discriminate|].
  rewrite (Hline0 ltac:(vm_compute; discriminate)),
    (Hcol0 ltac:(vm_compute; discriminate)) in Hrec.
  exact (Hrec "/abs/path.ly" eq_refl).
Defined.

Lemma run_clears_store_witness :
  Forall noMatch ["Processing `-'"; "Parsing..."; ""] ∧
  diagCol stale ≠ ∅ ∧
  diagCol (execIntellisense (posix [] "") score stale) = ∅ ∧
  Forall (λ o, execAll errMsgRegex o = []) ["Processing `-'"; "Parsing..."; ""] ∧
  diagCol (foldl (λ s o, onStderr (posix [] "") score o s)
             (execIntellisense (posix [] "") score stale)
             ["Processing `-'"; "Parsing..."; ""]) = ∅.
Proof.
  assert (Forall noMatch ["Processing `-'"; "Parsing..."; ""]) as Hno.
  { repeat constructor; apply noMatch_exec; vm_compute; reflexivity. }
  split; [exact Hno|]. split; [vm_compute; discriminate|].
  destruct (run_clears_store (posix [] "") score stale) as [Hclear Hchunks].
  split; [exact Hclear|]. exact (Hchunks score _ Hno).
Defined.

(** C4, as stated, fails: a line with the keyword [fatal] yields no
    record at all. *)
Lemma unknown_keyword_no_record :
  execAll errMsgRegex "-:12:5: fatal: bad note" = [] ∧
  processIntellisenseErrors (posix [] "") "-:12:5: fatal: bad note" score activated
    = activated.
Proof. split; vm_compute; reflexivity. Qed.

(** C5, on the code: after the events [staleClose] the second and the
    third process are both running, neither signalled nor closed; the
    [close] event of the first process had cleared the handle of the
    second. *)
Theorem stale_close_two_live :
  ∃ st, run (posix [] "") staleClose activated = Some st ∧
        liveCount st = 2%nat ∧
        live <$> processes st = [false; true; true].
Proof. eexists. split; [vm_compute; reflexivity|]. split; vm_compute; reflexivity. Qed.

Lemma debounce_witness :
  reachable (posix [] "") activated ∧
  languageId score = langId (posix [] "") ∧
  Forall (λ gd, (gd.1 < 500)%nat ∧ languageId gd.2 = langId (posix [] ""))
    [(100%nat, parts); (499%nat, score); (0%nat, parts)] ∧
  (500 ≤ 500)%nat ∧
  ∃ st1 st2,
    run (posix [] "") (burst score [(100%nat, parts); (499%nat, score); (0%nat, parts)])
      activated = Some st1 ∧
    invocations st1 = invocations activated ∧
    (∃ t, timers st1 = [t] ∧
          timerDoc t = lastDoc score [(100%nat, parts); (499%nat, score); (0%nat, parts)]) ∧
    run (posix [] "") [Elapse 500] st1 = Some st2 ∧
    invocations st2 =
      invocations activated ++
      [lastDoc score [(100%nat, parts); (499%nat, score); (0%nat, parts)]] ∧
    timers st2 = [] ∧
    ∀ evs1 evs2,
      burst score [(100%nat, parts); (499%nat, score); (0%nat, parts)] ++ [Elapse 500]
        = evs1 ++ evs2 →
      ∃ st', run (posix [] "") evs1 activated = Some st' ∧ (length (timers st') ≤ 1)%nat.
Proof.
  assert (reachable (posix [] "") activated) as Hreach.
  { exists None, []. reflexivity. }
  assert (Forall (λ gd, (gd.1 < 500)%nat ∧ languageId gd.2 = langId (posix [] ""))
            [(100%nat, parts); (499%nat, score); (0%nat, parts)]) as Hmore.
  { repeat constructor; simpl; lia. }
  split; [exact Hreach|]. split; [reflexivity|]. split; [exact Hmore|].
  split; [lia|].
  apply (debounce (posix [] "") activated score _ 500%nat Hreach); [reflexivity|exact Hmore|lia].
Defined.

Lemma blank_arguments_witness :
  Str.all Str.isSpace (additionalCommandLineArguments (posix [] "  ") score) = true ∧
  Str.split_ws (Str.trim (additionalCommandLineArguments (posix [] "  ") score)) = [""] ∧
  ∃ c : ChildProcess,
    processes (execIntellisense (posix [] "  ") score activated)
      !! length (processes activated) = Some c ∧
    spawnargs c = [""; "--loglevel=WARNING"; "--define-default=backend=null"; "-"].
Proof.
  split; [reflexivity|].
  apply (blank_arguments (posix [] "  ") score activated). reflexivity.
Defined.

(** The burst of the witness, run: one process, for the last document. *)
Example debounce_example :
  (λ st, (procDoc <$> processes st, timers st)) <$>
    run (posix [] "")
      (burst score [(100%nat, parts); (499%nat, score); (0%nat, parts)] ++ [Elapse 500])
      activated
  = Some ([parts], []).
Proof. vm_compute. reflexivity. Qed.

(** Arguments as configured by a user, and the fixed flags behind them. *)
Example spawn_arguments_example :
  spawnargs <$>
    processes (execIntellisense (posix [] "  -dno-point-and-click   --pdf ") score activated)
  = [["-dno-point-and-click"; "--pdf"; "--loglevel=WARNING";
      "--define-default=backend=null"; "-"]].
Proof. vm_compute. reflexivity. Qed.

(** Three records in one chunk, the second of a file that does not
    exist: the first and the third reach the store, the second is
    reported to the channel. *)
Example unresolved_record_example :
  (λ st, (diagsAt (diagCol st) "/home/u/score.ly", diagsAt (diagCol st) "/home/u/inc.ly",
          diagsAt (diagCol st) "/gone.ly", intellisenseOutputChannel st))
    (processIntellisenseErrors (posix ["/home/u/inc.ly"] "")
       "-:2:3: error: a
/gone.ly:4:5: warning: b
inc.ly:6:7: warning: c" score activated)
  = ([{| severity := Error;
         range := {| startLine := Num 1; startCol := Num 0;
                     endLine := Num 1; endCol := Num 2 |};
         message := "a" |}],
     [{| severity := Warning;
         range := {| startLine := Num 5; startCol := Num 0;
                     endLine := Num 5; endCol := Num 6 |};
         message := "c" |}],
     [],
     Some ["Intellisense error: Error in `/gone.ly`, -:2:3: error: a
/gone.ly:4:5: warning: b
inc.ly:6:7: warning: c"]).
Proof. vm_compute. reflexivity. Qed.

(** The resolver's cases, on a file system that holds [/abs/inc.ly],
    [/home/u/inc.ly] and [/home/u/lost.ly]: an absolute path that does
    not exist is still tried below the document's directory. *)
Example getUri_example :
  let env := posix ["/abs/inc.ly"; "/home/u/inc.ly"; "/home/u/lost.ly"] "" in
  getUri env score "-" = Ok "/home/u/score.ly" ∧
  getUri env score "/abs/inc.ly" = Ok "/abs/inc.ly" ∧
  getUri env score "inc.ly" = Ok "/home/u/inc.ly" ∧
  getUri env score "/lost.ly" = Ok "/home/u/lost.ly" ∧
  getUri env score "/gone.ly" = Throw "Error in `/gone.ly`".
Proof. repeat split; vm_compute; reflexivity. Qed.

(** The greedy path group: of two readings of a line the pattern
    takes the one with the longer path. *)
Example greedy_path_example :
  groups <$> execAll errMsgRegex "a.ly:1:2: warning: b.ly:3:4: error: c" =
  [[Some "a.ly:1:2: warning: b.ly:3:4: error: c"; Some "a.ly:1:2: warning: b.ly";
    Some "3"; Some "4"; Some "error"; Some "c"]].
Proof. vm_compute. reflexivity. Qed.

End Concrete.

(** * Further properties *)

(** ** The aggregator and the parser *)

Section ParserExtras.

Context `{Countable Uri} (env : @Env Uri).

Implicit Types (doc : @TextDocument Uri) (st : @State Uri _ _).
Implicit Types (col : gmap Uri (list Diagnostic)) (g : RegExpExecArray).

(** X1.  [addToDiagCol] appends: the diagnostic goes behind the ones
    already stored for its file identity, whose order is kept; an absent
    entry is created; the entries of every other file identity stay as
    they are; and nothing is deduplicated, the same diagnostic added
    twice is stored twice. *)
Theorem addToDiagCol_appends (diag : DiagnosticInfo) col :
  addToDiagCol diag col !! di_uri diag =
    Some (diagsAt col (di_uri diag) ++ [diagnosticOf diag]) ∧
  (col !! di_uri diag = None →
     addToDiagCol diag col !! di_uri diag = Some [diagnosticOf diag]) ∧
  (∀ u, u ≠ di_uri diag → addToDiagCol diag col !! u = col !! u) ∧
  diagsAt (addToDiagCol diag (addToDiagCol diag col)) (di_uri diag) =
    diagsAt col (di_uri diag) ++ [diagnosticOf diag; diagnosticOf diag].
Proof.
  split; [|split; [|split]].
  - unfold addToDiagCol. by rewrite lookup_insert_eq.
  - intros Hnone. unfold addToDiagCol. by rewrite lookup_insert_eq, Hnone.
  - intros u Hu. unfold addToDiagCol. by rewrite lookup_insert_ne.
  - rewrite !addToDiagCol_at. by rewrite <- app_assoc.
Qed.

Lemma length_render (f : Fields) : wellFormed f → (15 ≤ String.length (render f))%nat.
Proof.
  intros ((Hp & _) & (Hl & _) & (Hc & _) & Hk & (Hm & _)). unfold render.
  rewrite !append_length.
  assert (∀ s, s ≠ "" → (1 ≤ String.length s)%nat) as Hpos.
  { intros [|c s] Hs; [done | simpl; lia]. }
  pose proof (Hpos _ Hp). pose proof (Hpos _ Hl). pose proof (Hpos _ Hc).
  pose proof (Hpos _ Hm). destruct Hk as [-> | ->]; simpl; lia.
Qed.

(** Where in the input a match of [execAll] stands. *)
Lemma execAll_at (r : regex) (s : string) (x : Match) :
  nonempty r = true → x ∈ execAll r s →
  ∃ pre s', s = pre +:+ s' ∧ matchAt r s' = Some x.
Proof.
  intros Hne. remember (String.length s) as n eqn:Hn.
  revert s Hn. induction (lt_wf n) as [n _ IH]; intros s ->.
  rewrite execAll_unfold by done. destruct (exec r s) as [y|] eqn:He.
  - destruct (exec_Some _ _ _ He) as (pre & s1 & -> & Hm & _).
    intros [->|Hin]%elem_of_cons; [by exists pre, s1|].
    destruct (IH (String.length (rest y)) (exec_progress r _ y Hne He) (rest y) eq_refl Hin)
      as (pre' & s' & Hr & Hm').
    destruct (matchAt_Some _ _ _ Hm) as (a & c' & -> & _).
    exists (pre +:+ a +:+ pre'), s'. split; [|done].
    rewrite Hr. by rewrite !append_assoc.
  - by intros ?%elem_of_nil.
Qed.

Lemma execAll_count (s : string) :
  (15 * length (execAll errMsgRegex s) ≤ String.length s)%nat.
Proof.
  remember (String.length s) as n eqn:Hn.
  revert s Hn. induction (lt_wf n) as [n _ IH]; intros s ->.
  rewrite execAll_unfold by done. destruct (exec errMsgRegex s) as [x|] eqn:He.
  - pose proof (IH _ (exec_progress errMsgRegex _ x errMsgRegex_nonempty He) (rest x) eq_refl).
    destruct (exec_Some _ _ _ He) as (pre & s1 & -> & Hm & _).
    destruct (matchAt_errMsgRegex _ _ Hm) as (f & Hf & -> & _).
    pose proof (length_render f Hf). rewrite !append_length. simpl. lia.
  - simpl. lia.
Qed.

(** X2.  The loop of [processIntellisenseErrors] ends: a match is at
    least 15 characters long and the next search starts behind it, so a
    chunk gives at most a fifteenth of its length in matches, and rounds
    beyond the length of the chunk are never used. *)
Theorem parser_loop_ends (output : string) doc st :
  (15 * length (execAll errMsgRegex output) ≤ String.length output)%nat ∧
  ∀ fuel, (String.length output < fuel)%nat →
    whileExec env fuel output output doc st = processIntellisenseErrors env output doc st.
Proof.
  split; [apply execAll_count|]. intros fuel Hfuel.
  by apply processIntellisenseErrors_fuel.
Qed.

Lemma execAll_empty : execAll errMsgRegex "" = [].
Proof. reflexivity. Qed.

(** X3.  One line gives at most one record: the message group runs to
    the end of the line, so text of the error-line format inside the
    message of another is never read as a record of its own. *)
Theorem one_record_per_line (line : string) :
  Str.all notNewline line = true → (length (execAll errMsgRegex line) ≤ 1)%nat.
Proof.
  intros Hline. rewrite execAll_unfold by done.
  destruct (exec errMsgRegex line) as [x|] eqn:He; [|simpl; lia].
  destruct (exec_Some _ _ _ He) as (pre & s1 & -> & Hm & _).
  destruct (matchAt_errMsgRegex _ _ Hm) as (f & Hf & -> & _ & Hend).
  rewrite !all_append in Hline. apply andb_prop in Hline as [_ [_ Hrest]%andb_prop].
  destruct Hend as [-> | (nl & t & Hr & Hnl)].
  - rewrite execAll_empty. simpl. lia.
  - rewrite Hr in Hrest. simpl in Hrest. by rewrite Hnl in Hrest.
Qed.

(** X4.  The parser invents nothing: every match it handles is a text of
    the error-line format that stands in the chunk and runs to the end
    of its line, and the groups handed to the loop body are the fields
    of that text: a non-empty path, two non-empty digit strings, the
    keyword [error] or [warning], a non-empty message. *)
Theorem matches_stand_in_chunk (output : string) :
  Forall (λ x, ∃ f pre, wellFormed f ∧ groups x = arrayOf f ∧
                        output = pre +:+ render f +:+ rest x ∧ lineEnd (rest x))
    (execAll errMsgRegex output).
Proof.
  apply Forall_forall. intros x Hx.
  destruct (execAll_at _ _ _ errMsgRegex_nonempty Hx) as (pre & s' & -> & Hm).
  destruct (matchAt_errMsgRegex _ _ Hm) as (f & Hf & -> & Hg & Hend).
  by exists f, pre.
Qed.

(** *** What a chunk does to the state *)

Lemma loopBody_frame (output : string) doc g st :
  let st' := loopBody env output doc g st in
  timers st' = timers st ∧ timeout st' = timeout st ∧ nextTimer st' = nextTimer st ∧
  now st' = now st ∧ intellisenseProcess st' = intellisenseProcess st ∧
  processes st' = processes st.
Proof.
  unfold loopBody, outputToChannel. destruct (diagOfMatch env doc g); simpl; auto 10.
  destruct (intellisenseOutputChannel st); simpl; auto 10.
Qed.

Lemma processIntellisenseErrors_frame (output : string) doc st :
  let st' := processIntellisenseErrors env output doc st in
  timers st' = timers st ∧ timeout st' = timeout st ∧ nextTimer st' = nextTimer st ∧
  now st' = now st ∧ intellisenseProcess st' = intellisenseProcess st ∧
  processes st' = processes st.
Proof.
  simpl. rewrite processIntellisenseErrors_fold.
  generalize (groups <$> execAll errMsgRegex output). intros gs. revert st.
  induction gs as [|g gs IH]; intros st; simpl; [auto 10|].
  destruct (IH (loopBody env output doc g st)) as (-> & -> & -> & -> & -> & ->).
  apply loopBody_frame.
Qed.

Lemma addToDiagCol_prefix (diag : DiagnosticInfo) col (u : Uri) :
  diagsAt col u `prefix_of` diagsAt (addToDiagCol diag col) u.
Proof.
  destruct (decide (u = di_uri diag)) as [->|Hne].
  - rewrite addToDiagCol_at. by apply prefix_app_r.
  - by rewrite addToDiagCol_other.
Qed.

Lemma foldl_addToDiagCol_prefix (ds : list DiagnosticInfo) col (u : Uri) :
  diagsAt col u `prefix_of` diagsAt (foldl (λ c x, addToDiagCol x c) col ds) u.
Proof.
  revert col. induction ds as [|x ds IH]; intros col; simpl; [done|].
  etrans; [apply (addToDiagCol_prefix x)|apply IH].
Qed.

(** X5.  Parsing a chunk only adds to the store: for every file
    identity the diagnostics stored before are still there, in their
    order, at the front of the list.  Timers, the process handle and
    the processes are left alone. *)
Theorem parser_only_adds (output : string) doc st :
  let st' := processIntellisenseErrors env output doc st in
  (∀ u, diagsAt (diagCol st) u `prefix_of` diagsAt (diagCol st') u) ∧
  timers st' = timers st ∧ timeout st' = timeout st ∧
  intellisenseProcess st' = intellisenseProcess st ∧ processes st' = processes st.
Proof.
  intros st'. split.
  - intros u. unfold st'. rewrite processIntellisenseErrors_fold, diagCol_foldl_loopBody.
    apply foldl_addToDiagCol_prefix.
  - destruct (processIntellisenseErrors_frame output doc st) as (? & ? & _ & _ & ? & ?).
    auto.
Qed.

Lemma foldl_addToDiagCol_inv (ds : list DiagnosticInfo) col (u : Uri) (d : Diagnostic) :
  d ∈ diagsAt (foldl (λ c x, addToDiagCol x c) col ds) u →
  d ∈ diagsAt col u ∨ ∃ x, x ∈ ds ∧ di_uri x = u ∧ d = diagnosticOf x.
Proof.
  revert col. induction ds as [|x ds IH]; intros col; simpl; [by left|].
  intros [Hd | (y & Hy & Hu & ->)]%IH.
  - destruct (decide (u = di_uri x)) as [->|Hne].
    + rewrite addToDiagCol_at in Hd. apply elem_of_app in Hd as [Hd | ->%list_elem_of_singleton].
      * by left.
      * right. exists x. split; [apply elem_of_cons; by left | done].
    + rewrite addToDiagCol_other in Hd by done. by left.
  - right. exists y. split; [apply elem_of_cons; by right | done].
Qed.

Lemma resolved_shaped doc (output : string) (x : DiagnosticInfo) :
  x ∈ resolved env doc (groups <$> execAll errMsgRegex output) →
  parserShaped (diagnosticOf x).
Proof.
  intros (g & Hg & Hx)%list_elem_of_omap.
  apply list_elem_of_fmap in Hg as (m0 & -> & Hm0).
  destruct (execAll_at _ _ _ errMsgRegex_nonempty Hm0) as (pre & s' & _ & Hat).
  destruct (matchAt_errMsgRegex _ _ Hat) as (f & Hf & _ & Hgr & _).
  rewrite Hgr in Hx. unfold diagOfMatch in Hx.
  destruct (getUri env doc (group 1 (arrayOf f))) as [u|msg]; [|done].
  injection Hx as <-. unfold parserShaped, diagnosticOf. simpl.
  change (group 2 (arrayOf f)) with (f_line f). change (group 3 (arrayOf f)) with (f_col f).
  change (group 4 (arrayOf f)) with (f_kind f). change (group 5 (arrayOf f)) with (f_msg f).
  destruct Hf as (_ & (_ & Hl) & (_ & Hc) & Hk & Hm).
  split; [done|]. split; [done|].
  split; [by apply minus1_nonneg, parseInt_nonneg|].
  split; [by apply minus1_nonneg, parseInt_nonneg|]. split; [|done].
  destruct Hk as [-> | ->]; auto.
Qed.

(** X6.  Whatever a chunk adds to the store has the parser's shape: a
    range on one line from column 0, line and end column at least -1,
    severity [Error] or [Warning] (never [Information] or [Hint]), and
    a non-empty message without a line break. *)
Theorem parser_adds_shaped (output : string) doc st (u : Uri) :
  Forall (λ d, d ∈ diagsAt (diagCol st) u ∨ parserShaped d)
    (diagsAt (diagCol (processIntellisenseErrors env output doc st)) u).
Proof.
  apply Forall_forall. intros d.
  rewrite processIntellisenseErrors_fold, diagCol_foldl_loopBody.
  intros [Hd | (x & Hx & _ & ->)]%foldl_addToDiagCol_inv; [by left|].
  right. by eapply resolved_shaped.
Qed.

(** X7.  The location resolver never names a file that is not there: a
    resolved identity is the document's own or that of a path that
    [fs.existsSync] has just confirmed, the raw path itself or the raw
    path joined to the document's directory; and it throws only for a
    raw path other than [-] whose joined path does not exist. *)
Theorem getUri_resolves_existing doc (gotPath : string) :
  let joined := path_join env (path_dirname env (fsPath env (uri doc))) gotPath in
  match getUri env doc gotPath with
  | Ok u =>
      (gotPath = "-" ∧ u = uri doc) ∨
      ∃ p, u = Uri_file env p ∧ fs_existsSync env p = true ∧ (p = gotPath ∨ p = joined)
  | Throw msg =>
      gotPath ≠ "-" ∧ fs_existsSync env joined = false ∧
      (path_isAbsolute env gotPath = false ∨ fs_existsSync env gotPath = false)
  end.
Proof.
  intros joined. unfold getUri. fold joined.
  destruct (String.eqb_spec gotPath "-") as [->|Hne]; [by left|].
  destruct (path_isAbsolute env gotPath) eqn:Habs, (fs_existsSync env gotPath) eqn:Hex;
    simpl; try (right; exists gotPath; by auto);
    destruct (fs_existsSync env joined) eqn:Hj; simpl;
    try (right; exists joined; by auto); auto.
Qed.

(** X8.  Where a chunk is cut at a line break makes no difference to
    the store: the diagnostics of [a], a line break, [b] in one chunk
    are those of the chunk [a] followed by the chunk [b]. *)
Theorem chunks_cut_at_line_break (a b : string) (nl : ascii) doc st :
  notNewline nl = false →
  diagCol (processIntellisenseErrors env (a +:+ String nl b) doc st) =
  diagCol (processIntellisenseErrors env b doc (processIntellisenseErrors env a doc st)).
Proof.
  intros Hnl. rewrite !processIntellisenseErrors_fold, !diagCol_foldl_loopBody.
  rewrite (execAll_local nl errMsgRegex a b (errMsgRegex_rejects nl Hnl) errMsgRegex_nonempty).
  by rewrite resolved_app, foldl_app.
Qed.

End ParserExtras.

(** ** The process runner and the scheduler *)

Section RunnerExtras.

Context `{Countable Uri} (env : @Env Uri).

Implicit Types (doc d : @TextDocument Uri) (st : @State Uri _ _).

(** *** What each function leaves alone *)

Lemma triggerIntellisense_frame doc st :
  let st' := triggerIntellisense doc st in
  processes st' = processes st ∧ intellisenseProcess st' = intellisenseProcess st ∧
  diagCol st' = diagCol st ∧ now st' = now st ∧
  intellisenseOutputChannel st' = intellisenseOutputChannel st ∧ logged st' = logged st ∧
  (length (timers st') ≤ S (length (timers st)))%nat.
Proof.
  unfold triggerIntellisense, setTimeout, clearTimeout.
  destruct (timeout st) as [t|]; simpl; repeat split; rewrite length_app; simpl.
  - pose proof (length_filter (λ t0 : Timer, timerId t0 ≠ t) (timers st)). lia.
  - lia.
Qed.

(** *** The output channel and the log *)

Lemma thrown_alter (g : @ChildProcess Uri → @ChildProcess Uri) (p : nat)
    (ps : list (@ChildProcess Uri)) :
  (∀ c, outcome (g c) = outcome c) → thrown (alter g p ps) = thrown ps.
Proof.
  intros Hg. unfold thrown. revert p.
  induction ps as [|c ps IH]; intros [|p]; cbn [alter list_alter omap list_omap]; try done.
  - by rewrite Hg.
  - by rewrite (IH p).
Qed.

Lemma channelOk_outputToChannel (msg : string) st :
  channelOk st → channelOk (outputToChannel msg st).
Proof.
  intros [[lines Hl] Hlog]. unfold outputToChannel. rewrite Hl. by split.
Qed.

Lemma channelOk_processIntellisenseErrors (output : string) doc st :
  channelOk st → channelOk (processIntellisenseErrors env output doc st).
Proof.
  rewrite processIntellisenseErrors_fold.
  generalize (groups <$> execAll errMsgRegex output). intros gs. revert st.
  induction gs as [|g gs IH]; intros st Hok; simpl; [done|].
  apply IH. unfold loopBody. destruct (diagOfMatch env doc g); [done|].
  by apply channelOk_outputToChannel.
Qed.

Lemma channelOk_logger (msg : string) st : channelOk st → channelOk (logger msg info st).
Proof.
  intros [Hc Hlog]. split; [done|]. simpl. rewrite filter_app, Hlog.
  rewrite filter_cons_False by (simpl; by intros Hne). apply app_nil_r.
Qed.

(** A run keeps the channel; it logs an error exactly when its call of
    [cp.spawn] throws. *)
Lemma channelOk_execIntellisense doc st :
  channelOk st → channelOk (execIntellisense env doc st).
Proof.
  intros [[lines Hl] Hlog].
  destruct (execIntellisense_spec env doc st) as (Hps & _ & _ & _ & Hout).
  assert (thrown (processes (execIntellisense env doc st)) =
          thrown (processes st) ++ thrown [spawnCall env doc (now st)]) as Hthrown.
  { rewrite Hps. unfold thrown at 1. rewrite omap_app. f_equal.
    destruct (intellisenseProcess st); [|done]. by apply thrown_alter. }
  unfold channelOk. rewrite Hthrown, fmap_app. rewrite Hl in Hout.
  unfold thrown at 2. cbn [omap list_omap].
  destruct (outcome (spawnCall env doc (now st))) as [| |msg];
    destruct Hout as [-> ->]; (split; [by eexists|]).
  - by rewrite Hlog, app_nil_r.
  - by rewrite Hlog, app_nil_r.
  - rewrite filter_app, Hlog. f_equal.
Qed.

(** *** The runs of the timers *)

Lemma handleOk_execIntellisense doc st : handleOk (execIntellisense env doc st).
Proof.
  destruct (processes_execIntellisense env doc st) as (Hp & Hc & Hlen & _).
  intros p Hp'. rewrite Hp in Hp'. unfold handleOf in Hp'.
  destruct (outcome (spawnCall env doc (now st))) as [| |msg] eqn:Hout; [| |done];
    injection Hp' as <-; (split; [done|]); eexists; (split; [exact Hc|]); auto.
Qed.

(** The runs of the timers that have come due, one after the other. *)
Lemma runs_spec (ready : list Timer) st :
  let st' := foldl (λ st t, execIntellisense env (timerDoc t) st) st ready in
  timers st' = timers st ∧ timeout st' = timeout st ∧ now st' = now st ∧
  length (processes st') = (length (processes st) + length ready)%nat ∧
  (handleOk st → handleOk st') ∧ (channelOk st → channelOk st').
Proof.
  revert st. induction ready as [|t ready IH]; intros st; simpl.
  - do 3 (split; [done|]). split; [lia | done].
  - destruct (IH (execIntellisense env (timerDoc t) st)) as (-> & -> & -> & -> & Hok & Hch).
    destruct (timers_execIntellisense env (timerDoc t) st) as (-> & -> & _ & ->).
    destruct (processes_execIntellisense env (timerDoc t) st) as (_ & _ & -> & _).
    do 3 (split; [done|]). split; [lia|]. split.
    + intros _. apply Hok, handleOk_execIntellisense.
    + intros Hst. by apply Hch, channelOk_execIntellisense.
Qed.

Lemma runTimers_spec st :
  let st' := runTimers env st in
  timeout st' = timeout st ∧ now st' = now st ∧
  (length (processes st') + length (timers st') =
     length (processes st) + length (timers st))%nat ∧
  (handleOk st → handleOk st') ∧ (channelOk st → channelOk st').
Proof.
  unfold runTimers.
  destruct (partition (λ t, bool_decide (due t ≤ now st)%nat) (timers st))
    as [ready waiting] eqn:Hpart.
  apply List.partition_length in Hpart.
  destruct (runs_spec ready (set_timers waiting (nextTimer st) st))
    as (-> & -> & -> & -> & Hok & Hch).
  simpl. do 2 (split; [done|]). split; [lia|]. split.
  - intros Hst. by apply Hok.
  - intros Hst. by apply Hch.
Qed.

(** *** The process handle *)




(** X10.  A run that finds a process handle calls [kill()] on that
    process and leaves the processes spawned earlier otherwise as they
    are; the handle it stores is that of the child of its own call, a
    different one, and none when that call threw. *)
Theorem run_signals_handle doc st (p : nat) (c : ChildProcess) :
  intellisenseProcess st = Some p → processes st !! p = Some c →
  let st' := execIntellisense env doc st in
  killed <$> processes st' !! p = Some true ∧
  closed <$> processes st' !! p = Some (closed c) ∧
  (∀ q, q ≠ p → (q < length (processes st))%nat → processes st' !! q = processes st !! q) ∧
  (∃ c', processes st' !! length (processes st) = Some c' ∧
         intellisenseProcess st' =
           match outcome c' with
           | SpawnThrows _ => None
           | _ => Some (length (processes st))
           end) ∧
  intellisenseProcess st' ≠ Some p ∧
  p ≠ length (processes st).
Proof.
  intros Hp Hc st'. pose proof (lookup_lt_Some _ _ _ Hc) as Hlt.
  destruct (execIntellisense_spec env doc st) as (Hps & Hh & _).
  destruct (processes_execIntellisense env doc st) as (_ & Hnew & _).
  fold st' in Hps, Hh, Hnew. rewrite Hp in Hps.
  split; [|split; [|split; [|split; [|split]]]].
  - rewrite Hps. unfold kill. simpl.
    rewrite lookup_app_l by (rewrite length_alter; lia).
    by rewrite list_lookup_alter_eq, Hc.
  - rewrite Hps. unfold kill. simpl.
    rewrite lookup_app_l by (rewrite length_alter; lia).
    by rewrite list_lookup_alter_eq, Hc.
  - intros q Hq Hql. rewrite Hps. unfold kill. simpl.
    rewrite lookup_app_l by (rewrite length_alter; lia).
    by rewrite list_lookup_alter_ne.
  - exists (spawnCall env doc (now st)). split; [exact Hnew | exact Hh].
  - rewrite Hh. unfold handleOf. destruct (outcome _); [| |done]; intros [= ?]; lia.
  - lia.
Qed.

(** *** Processes without a handle *)

Lemma unheld_execIntellisense doc st (q : nat) (k : bool) :
  killed <$> processes st !! q = Some k → intellisenseProcess st ≠ Some q →
  killed <$> processes (execIntellisense env doc st) !! q = Some k ∧
  intellisenseProcess (execIntellisense env doc st) ≠ Some q.
Proof.
  intros Hq Hh.
  assert (q < length (processes st))%nat as Hlt.
  { destruct (processes st !! q) eqn:Hl; [by eapply lookup_lt_Some | done]. }
  destruct (execIntellisense_spec env doc st) as (-> & -> & _).
  split; [|unfold handleOf; destruct (outcome _); [| |done]; intros [= ?]; lia].
  destruct (intellisenseProcess st) as [p|] eqn:Hp.
  - rewrite lookup_app_l by (rewrite length_processes_kill; lia).
    unfold kill. simpl. rewrite list_lookup_alter_ne by congruence. done.
  - by rewrite lookup_app_l.
Qed.

Lemma unheld_runs (ready : list Timer) st (q : nat) (k : bool) :
  killed <$> processes st !! q = Some k → intellisenseProcess st ≠ Some q →
  let st' := foldl (λ st t, execIntellisense env (timerDoc t) st) st ready in
  killed <$> processes st' !! q = Some k ∧ intellisenseProcess st' ≠ Some q.
Proof.
  revert st. induction ready as [|t ready IH]; intros st Hq Hh; simpl; [done|].
  destruct (unheld_execIntellisense (timerDoc t) st q k Hq Hh) as [Hq' Hh'].
  by apply IH.
Qed.

Lemma unheld_handle (ev : Event) st st' (q : nat) (k : bool) :
  killed <$> processes st !! q = Some k → intellisenseProcess st ≠ Some q →
  handle env ev st = Some st' →
  killed <$> processes st' !! q = Some k ∧ intellisenseProcess st' ≠ Some q.
Proof.
  intros Hq Hh. destruct ev as [[d|]|d|d|ms|p data|p data|p code]; simpl.
  - intros [= <-]. destruct (String.eqb _ _); [|done].
    destruct (triggerIntellisense_frame d st) as (-> & -> & _). done.
  - by intros [= <-].
  - intros [= <-]. unfold onDidChangeTextDocument. destruct (String.eqb _ _); [|done].
    destruct (triggerIntellisense_frame d st) as (-> & -> & _). done.
  - by intros [= <-].
  - intros [= <-]. unfold runTimers. simpl.
    destruct (partition _ (timers st)) as [ready waiting]. by apply unheld_runs.
  - destruct (processes st !! p) as [c|]; [|done]. destruct (emits c) eqn:Hemits; [|done].
    by intros [= <-].
  - destruct (processes st !! p) as [c|]; [|done]. destruct (emits c) eqn:Hemits; [|done].
    intros [= <-]. unfold onStderr.
    destruct (processIntellisenseErrors_frame env data (procDoc c) st)
      as (_ & _ & _ & _ & -> & ->).
    done.
  - destruct (processes st !! p) as [c|] eqn:Hc; [|done]. destruct (emits c) eqn:Hemits; [|done].
    intros [= <-]. simpl. split; [|done].
    destruct (decide (q = p)) as [->|Hne].
    + rewrite list_lookup_alter_eq. rewrite Hc in *. done.
    + by rewrite list_lookup_alter_ne.
Qed.

(** X11.  A process is only ever signalled while it holds the handle:
    once the handle has moved on or has been cleared, for one by the
    [close] event of another process, no later event signals the
    process, and the handle never returns to it. *)
Theorem unheld_process_never_signalled (evs : list Event) st st' (q : nat) (k : bool) :
  killed <$> processes st !! q = Some k → intellisenseProcess st ≠ Some q →
  run env evs st = Some st' →
  killed <$> processes st' !! q = Some k ∧ intellisenseProcess st' ≠ Some q.
Proof.
  revert st. induction evs as [|ev evs IH]; intros st Hq Hh; simpl.
  - by intros [= <-].
  - destruct (handle env ev st) as [st1|] eqn:Hev; [|done].
    destruct (unheld_handle ev st st1 q k Hq Hh Hev) as [Hq1 Hh1]. by apply IH.
Qed.

(** *** Invocations and triggers *)

Lemma budget_handle (ev : Event) st st' :
  handle env ev st = Some st' →
  (length (processes st') + length (timers st') ≤
   length (processes st) + length (timers st) + (if isTrigger env ev then 1 else 0))%nat.
Proof.
  destruct ev as [[d|]|d|d|ms|p data|p data|p code]; simpl.
  - intros [= <-]. destruct (String.eqb _ _); [|lia].
    destruct (triggerIntellisense_frame d st) as (-> & _ & _ & _ & _ & _ & Hlen). lia.
  - intros [= <-]. lia.
  - intros [= <-]. unfold onDidChangeTextDocument. destruct (String.eqb _ _); [|lia].
    destruct (triggerIntellisense_frame d st) as (-> & _ & _ & _ & _ & _ & Hlen). lia.
  - intros [= <-]. simpl. lia.
  - intros [= <-].
    destruct (runTimers_spec (set_now (now st + ms)%nat st)) as (_ & _ & Hsum & _).
    simpl in Hsum. lia.
  - destruct (processes st !! p) as [c|]; [|done]. destruct (emits c) eqn:Hemits; [|done].
    intros [= <-]. simpl. lia.
  - destruct (processes st !! p) as [c|]; [|done]. destruct (emits c) eqn:Hemits; [|done].
    intros [= <-]. unfold onStderr.
    destruct (processIntellisenseErrors_frame env data (procDoc c) st)
      as (-> & _ & _ & _ & _ & ->).
    lia.
  - destruct (processes st !! p) as [c|]; [|done]. destruct (emits c) eqn:Hemits; [|done].
    intros [= <-]. simpl. rewrite length_alter. lia.
Qed.

(** X12.  The process runner is invoked at most once per trigger: over
    any events, the processes spawned and the timers still pending are
    no more than those before plus the changes of documents of the
    extension's language; changes of other documents, output and
    [close] events count for nothing. *)
Theorem invocations_within_triggers (evs : list Event) st st' :
  run env evs st = Some st' →
  (length (invocations st') + length (timers st') ≤
   length (invocations st) + length (timers st) + triggers env evs)%nat.
Proof.
  unfold invocations. rewrite !length_fmap. revert st.
  induction evs as [|ev evs IH]; intros st; simpl.
  - intros [= <-]. unfold triggers. simpl. lia.
  - destruct (handle env ev st) as [st1|] eqn:Hev; [|done]. intros Hrun.
    pose proof (budget_handle ev st st1 Hev) as Hstep. pose proof (IH st1 Hrun) as Hrest.
    unfold triggers in *. revert Hstep. destruct (isTrigger env ev) eqn:Htr; intros Hstep.
    + rewrite filter_cons_True by done. simpl. lia.
    + rewrite filter_cons_False by (rewrite Htr; done). lia.
Qed.

(** *** Pending timers *)

Lemma timersDue_handle (ev : Event) st st' :
  timersOk st → timersDue st → handle env ev st = Some st' → timersDue st'.
Proof.
  intros Hok Hdue.
  assert (∀ d, timersDue (triggerIntellisense d st)) as Htrig.
  { intros d. destruct (triggerIntellisense_spec d st Hok) as (Ht & _ & Hnow & _).
    intros t. rewrite Ht, Hnow. intros ->%list_elem_of_singleton. simpl. lia. }
  destruct ev as [[d|]|d|d|ms|p data|p data|p code]; simpl.
  - intros [= <-]. by destruct (String.eqb _ _).
  - by intros [= <-].
  - intros [= <-]. unfold onDidChangeTextDocument. by destruct (String.eqb _ _).
  - by intros [= <-].
  - intros [= <-]. destruct Hok as [Ht | (t & Ht & _)].
    + rewrite runTimers_none by done. intros t. simpl. by intros ?%elem_of_nil.
    + destruct (decide (due t ≤ now st + ms)%nat) as [Hfire|Hwait].
      * rewrite (runTimers_ready env _ t) by done.
        intros t'.
        match goal with
        | |- context [execIntellisense env ?x ?s] =>
            destruct (timers_execIntellisense env x s) as (-> & _)
        end.
        simpl. by intros ?%elem_of_nil.
      * rewrite (runTimers_waiting env _ t) by (simpl; (done || lia)).
        destruct (Hdue t) as [? ?]; [rewrite Ht; by apply list_elem_of_singleton|].
        intros t'. simpl. intros ->%list_elem_of_singleton. lia.
  - destruct (processes st !! p) as [c|]; [|done]. destruct (emits c) eqn:Hemits; [|done].
    by intros [= <-].
  - destruct (processes st !! p) as [c|]; [|done]. destruct (emits c) eqn:Hemits; [|done].
    intros [= <-]. unfold onStderr, timersDue.
    destruct (processIntellisenseErrors_frame env data (procDoc c) st)
      as (-> & _ & _ & -> & _).
    done.
  - destruct (processes st !! p) as [c|]; [|done]. destruct (emits c) eqn:Hemits; [|done].
    by intros [= <-].
Qed.

Lemma timersDue_run (evs : list Event) st st' :
  timersOk st → timersDue st → run env evs st = Some st' → timersDue st'.
Proof.
  revert st. induction evs as [|ev evs IH]; intros st Hok Hdue; simpl.
  - by intros [= <-].
  - destruct (handle env ev st) as [st1|] eqn:Hev; [|done].
    apply IH; [by eapply timersOk_handle | by eapply timersDue_handle].
Qed.

(** X13.  A pending run is never overdue and never further away than
    the quiet interval: in every state events lead to, the pending
    timer is due after now and within 500 ms, so 500 ms without a
    trigger leave no timer pending and start at most one run. *)
Theorem quiet_interval_drains st (ms : nat) :
  reachable env st → (500 ≤ ms)%nat →
  timersDue st ∧
  ∃ st', handle env (Elapse ms) st = Some st' ∧ timers st' = [] ∧
         (length (invocations st') ≤ S (length (invocations st)))%nat.
Proof.
  intros Hreach Hms. pose proof (timersOk_reachable env st Hreach) as Hok.
  assert (timersDue st) as Hdue.
  { destruct Hreach as (active & evs & Hrun).
    eapply timersDue_run; [apply timersOk_subscribe | | exact Hrun].
    unfold subscribeIntellisense. destruct active as [d|]; [|by intros t ?%elem_of_nil].
    destruct (String.eqb _ _); [|by intros t ?%elem_of_nil].
    destruct (triggerIntellisense_spec d (initIntellisense loaded)) as (Ht & _ & Hnow & _);
      [by left|].
    intros t. rewrite Ht, Hnow. intros ->%list_elem_of_singleton. simpl. lia. }
  split; [done|]. eexists. split; [done|].
  unfold invocations. rewrite !length_fmap.
  destruct Hok as [Ht | (t & Ht & _)].
  - rewrite runTimers_none by done. simpl. split; [done | lia].
  - destruct (Hdue t) as [_ Hle]; [rewrite Ht; by apply list_elem_of_singleton|].
    rewrite (runTimers_ready env _ t) by (simpl; (done || lia)).
    match goal with
    | |- context [execIntellisense env ?x ?s] =>
        destruct (timers_execIntellisense env x s) as (-> & _);
        destruct (processes_execIntellisense env x s) as (_ & _ & -> & _)
    end.
    simpl. split; [done | lia].
Qed.

(** *** The output channel *)

Lemma channelOk_handle (ev : Event) st st' :
  channelOk st → handle env ev st = Some st' → channelOk st'.
Proof.
  intros Hok.
  assert (∀ d, channelOk (triggerIntellisense d st)) as Htrig.
  { intros d. destruct (triggerIntellisense_frame d st) as (Hp & _ & _ & _ & Hc & Hl & _).
    unfold channelOk. by rewrite Hc, Hl, Hp. }
  destruct ev as [[d|]|d|d|ms|p data|p data|p code]; simpl.
  - intros [= <-]. by destruct (String.eqb _ _).
  - by intros [= <-].
  - intros [= <-]. unfold onDidChangeTextDocument. by destruct (String.eqb _ _).
  - by intros [= <-].
  - intros [= <-].
    destruct (runTimers_spec (set_now (now st + ms)%nat st)) as (_ & _ & _ & _ & Hrun).
    by apply Hrun.
  - destruct (processes st !! p) as [c|]; [|done]. destruct (emits c); [|done].
    intros [= <-]. by apply channelOk_logger.
  - destruct (processes st !! p) as [c|]; [|done]. destruct (emits c); [|done].
    intros [= <-]. by apply channelOk_processIntellisenseErrors.
  - destruct (processes st !! p) as [c|]; [|done]. destruct (emits c); [|done].
    intros [= <-]. unfold onClose.
    assert (channelOk (markClosed p st)) as Hclosed.
    { destruct Hok as [Hc Hlog]. split; [done|]. simpl. by rewrite thrown_alter. }
    destruct (channelOk_logger ("Intellisense process exited with code " +:+ showCode code)
                (markClosed p st) Hclosed) as [? ?].
    by split.
Qed.

(** X14.  Once the extension is activated the output channel exists and
    stays: the branch of [outputToChannel] that falls back to the
    logger is never taken, so nothing is logged at level [warning]; and
    what is logged above level [info] are the errors of the runs whose
    call of [cp.spawn] threw, one entry for each such call, in order,
    with the text the [catch] block of [execIntellisense] gives it. *)
Theorem channel_stays_ready st :
  reachable env st →
  is_Some (intellisenseOutputChannel st) ∧
  Forall (λ e, e.1 ≠ warning) (logged st) ∧
  filter (λ e, e.1 ≠ info) (logged st) =
    (λ msg, (error, "Intellisense failed with error " +:+ msg)) <$> thrown (processes st).
Proof.
  intros (active & evs & Hrun).
  assert (channelOk (subscribeIntellisense env active loaded)) as Hinit.
  { assert (channelOk (initIntellisense (loaded (Uri := Uri)))) as H0
      by (split; [by eexists | done]).
    unfold subscribeIntellisense. destruct active as [d|]; [|done].
    destruct (String.eqb _ _); [|done].
    destruct (triggerIntellisense_frame d (initIntellisense loaded))
      as (Hp & _ & _ & _ & Hc & Hl & _).
    unfold channelOk. by rewrite Hc, Hl, Hp. }
  assert (channelOk st) as [Hch Hlog].
  { revert Hinit Hrun. generalize (subscribeIntellisense env active loaded).
    induction evs as [|ev evs IH]; intros s Hs; simpl.
    - by intros [= <-].
    - destruct (handle env ev s) as [s1|] eqn:Hev; [|done].
      apply IH. by eapply channelOk_handle. }
  split; [done|]. split; [|exact Hlog].
  apply Forall_forall. intros e He Hw.
  assert (e ∈ filter (λ e, e.1 ≠ info) (logged st)) as Hin.
  { apply list_elem_of_filter. split; [by rewrite Hw | done]. }
  rewrite Hlog in Hin. apply list_elem_of_fmap in Hin as (msg & -> & _). done.
Qed.

(** *** The user arguments *)

Lemma specWordsFrom_solid (cur s : string) :
  Str.all (λ c, negb (Str.isSpace c)) cur = true →
  Forall (λ a, a ≠ "" ∧ Str.all (λ c, negb (Str.isSpace c)) a = true) (specWordsFrom cur s).
Proof.
  revert cur. induction s as [|c s IH]; intros cur Hcur; simpl.
  - destruct cur; [constructor | by repeat constructor].
  - destruct (Str.isSpace c) eqn:Hc.
    + apply Forall_app. split; [|by apply IH].
      destruct cur; [constructor | by repeat constructor].
    + apply IH. rewrite all_append, Hcur. simpl. by rewrite Hc.
Qed.

Lemma specWords_none (s : string) : specWords s = [] → Str.all Str.isSpace s = true.
Proof.
  unfold specWords. induction s as [|c s IH]; simpl; [done|].
  destruct (Str.isSpace c) eqn:Hc; [done|].
  intros Hnil. by destruct (specWordsFrom_nonempty (String c "") s).
Qed.

(** X15.  No user argument handed to the compiler has white space in
    it, and none is empty, the one exception being the single empty
    argument of a blank configuration. *)
Theorem user_arguments_solid doc :
  Forall (λ a, Str.all (λ c, negb (Str.isSpace c)) a = true ∧
               (a = "" → Str.all Str.isSpace (additionalCommandLineArguments env doc) = true))
    (Str.split_ws (Str.trim (additionalCommandLineArguments env doc))).
Proof.
  rewrite split_trim_words.
  destruct (specWords (additionalCommandLineArguments env doc)) as [|w ws] eqn:Hw.
  - repeat constructor. intros _. by apply specWords_none.
  - pose proof (specWordsFrom_solid "" (additionalCommandLineArguments env doc) eq_refl)
      as Hall.
    fold (specWords (additionalCommandLineArguments env doc)) in Hall. rewrite Hw in Hall.
    eapply Forall_impl; [exact Hall|]. by intros a [Hne Ha].
Qed.

End RunnerExtras.

(** ** Concrete runs for the further properties *)

Section ConcreteExtras.

Lemma one_record_per_line_witness :
  Str.all notNewline "a.ly:1:2: warning: b.ly:3:4: error: c" = true ∧
  (length (execAll errMsgRegex "a.ly:1:2: warning: b.ly:3:4: error: c") ≤ 1)%nat.
Proof.
  split; [reflexivity|]. apply one_record_per_line. reflexivity.
Defined.

Lemma chunks_cut_at_line_break_witness :
  notNewline "010" = false ∧
  diagCol (processIntellisenseErrors (posix [] "")
             ("-:2:3: error: a" +:+ String "010" "-:4:5: warning: b") score activated) =
  diagCol (processIntellisenseErrors (posix [] "") "-:4:5: warning: b" score
             (processIntellisenseErrors (posix [] "") "-:2:3: error: a" score activated)).
Proof.
  split; [reflexivity|].
  apply (chunks_cut_at_line_break (posix [] "")). reflexivity.
Defined.

(** A record cut in two by the chunk boundary is lost: neither half has
    the error-line format. *)
Example chunk_cut_inside_line :
  diagCol (processIntellisenseErrors (posix [] "") ": error: a" score
             (processIntellisenseErrors (posix [] "") "-:2:3" score activated)) = ∅ ∧
  diagsAt (diagCol (processIntellisenseErrors (posix [] "") "-:2:3: error: a"
                      score activated)) "/home/u/score.ly" =
  [{| severity := Error;
      range := {| startLine := Num 1; startCol := Num 0; endLine := Num 1; endCol := Num 2 |};
      message := "a" |}].
Proof. split; vm_compute; reflexivity. Qed.



(** The same in a state with a compile going on, and what the two
    states hold: a child that runs, and one that never ran. *)
Example handle_examples :
  (intellisenseProcess running, (λ c, (outcome c, live c)) <$> processes running) =
    (Some 0%nat, [(Spawned, true)]) ∧
  (intellisenseProcess neverRan, (λ c, (outcome c, live c)) <$> processes neverRan) =
    (Some 0%nat, [(SpawnFails, false)]) ∧
  handle notInstalled (Close 0 None) neverRan = None.
Proof. repeat split; vm_compute; reflexivity. Qed.

Lemma run_signals_handle_witness :
  intellisenseProcess running = Some 0%nat ∧
  (∃ c, processes running !! 0%nat = Some c ∧
    let st' := execIntellisense (posix [] "") parts running in
    killed <$> processes st' !! 0%nat = Some true ∧
    closed <$> processes st' !! 0%nat = Some (closed c) ∧
    (∀ q, q ≠ 0%nat → (q < length (processes running))%nat →
       processes st' !! q = processes running !! q) ∧
    (∃ c', processes st' !! length (processes running) = Some c' ∧
           intellisenseProcess st' =
             match outcome c' with
             | SpawnThrows _ => None
             | _ => Some (length (processes running))
             end) ∧
    intellisenseProcess st' ≠ Some 0%nat ∧
    0%nat ≠ length (processes running)).
Proof.
  split; [reflexivity|]. eexists. split; [reflexivity|].
  apply (run_signals_handle (posix [] "") parts running 0); reflexivity.
Defined.

(** A run whose call of [cp.spawn] throws: the handle it found is
    signalled and dropped, and none is stored. *)
Example run_throws_example :
  let st' := execIntellisense (posixWith [] "" "") parts running in
  (intellisenseProcess st', (λ c, (outcome c, killed c)) <$> processes st') =
  (None, [(Spawned, true);
          (SpawnThrows "The argument 'file' cannot be empty. Received ''", false)]).
Proof. vm_compute. reflexivity. Qed.

Lemma unheld_process_never_signalled_witness :
  killed <$> processes orphaned !! 1%nat = Some false ∧
  intellisenseProcess orphaned ≠ Some 1%nat ∧
  run (posix [] "") twoRunsOn orphaned = Some afterOrphaned ∧
  killed <$> processes afterOrphaned !! 1%nat = Some false ∧
  intellisenseProcess afterOrphaned ≠ Some 1%nat.
Proof.
  assert (run (posix [] "") twoRunsOn orphaned = Some afterOrphaned) as Hrun
    by (vm_compute; reflexivity).
  assert (intellisenseProcess orphaned ≠ Some 1%nat) as Hh by (vm_compute; discriminate).
  split; [reflexivity|]. split; [exact Hh|]. split; [exact Hrun|].
  apply (unheld_process_never_signalled (posix [] "") twoRunsOn orphaned afterOrphaned 1 false);
    [reflexivity | exact Hh | exact Hrun].
Defined.

(** The process that lost its handle outlives the two later runs, which
    signal only their own predecessors. *)
Example orphan_example :
  live <$> processes afterOrphaned = [false; true; false; true].
Proof. vm_compute. reflexivity. Qed.

Lemma invocations_within_triggers_witness :
  run (posix [] "") staleClose activated = Some raced ∧
  (length (invocations raced) + length (timers raced) ≤
   length (invocations activated) + length (timers activated) +
   triggers (posix [] "") staleClose)%nat.
Proof.
  assert (run (posix [] "") staleClose activated = Some raced) as Hrun
    by (vm_compute; reflexivity).
  split; [exact Hrun|].
  apply (invocations_within_triggers (posix [] "") staleClose activated raced Hrun).
Defined.

Lemma reachable_pending : reachable (posix [] "") pending.
Proof. exists None, [DidChangeTextDocument score; Elapse 200]. vm_compute. reflexivity. Defined.

(** A timer is pending, due 300 ms from now; 500 ms later it has run. *)
Lemma quiet_interval_drains_witness :
  reachable (posix [] "") pending ∧ (500 ≤ 500)%nat ∧
  (now pending, timers pending) =
    (200%nat, [{| timerId := 0%nat; due := 500%nat; timerDoc := score |}]) ∧
  timersDue pending ∧
  ∃ st', handle (posix [] "") (Elapse 500) pending = Some st' ∧ timers st' = [] ∧
         (length (invocations st') ≤ S (length (invocations pending)))%nat.
Proof.
  split; [exact reachable_pending|]. split; [lia|]. split; [reflexivity|].
  apply (quiet_interval_drains (posix [] "") pending 500 reachable_pending). lia.
Defined.

Example quiet_interval_example :
  (λ st, (timers st, invocations st)) <$> handle (posix [] "") (Elapse 500) pending =
  Some ([], [score]).
Proof. vm_compute. reflexivity. Qed.

Lemma reachable_afterThrow : reachable outOfMemory afterThrow.
Proof. exists None, secondRunThrows. vm_compute. reflexivity. Defined.

(** What the log and the channel hold after a run whose call of
    [cp.spawn] threw. *)
Example afterThrow_example :
  logged afterThrow =
    [(info, "Intellisense: no errors, ok");
     (info, "Intellisense process exited with code 1");
     (error, "Intellisense failed with error spawn ENOMEM")] ∧
  intellisenseOutputChannel afterThrow = Some ["Intellisense failed with error spawn ENOMEM"] ∧
  outcome <$> processes afterThrow = [Spawned; SpawnThrows "spawn ENOMEM"] ∧
  intellisenseProcess afterThrow = None.
Proof. repeat split; vm_compute; reflexivity. Qed.

Lemma channel_stays_ready_witness :
  reachable outOfMemory afterThrow ∧
  is_Some (intellisenseOutputChannel afterThrow) ∧
  Forall (λ e, e.1 ≠ warning) (logged afterThrow) ∧
  filter (λ e, e.1 ≠ info) (logged afterThrow) =
    (λ msg, (error, "Intellisense failed with error " +:+ msg))
      <$> thrown (processes afterThrow).
Proof.
  split; [exact reachable_afterThrow|].
  apply (channel_stays_ready outOfMemory afterThrow reachable_afterThrow).
Defined.

End ConcreteExtras.
